(** * The transfer accounter of [cmd/accounting-reader.go]

    A shallow embedding of the [accounter] type, its methods and the
    goroutine it starts, followed by the properties of the counter.

    Two views of the same code are given:

    - a sequential one, where every method call runs to completion before
      the next one starts (state passing over the [accounter] record);
    - an interleaving one ([Module Conc]), where [Stat], [Update] and the
      [writer] goroutine are split at each access to shared memory and a
      schedule chooses which goroutine moves next.

    Integers are Go's [int64]: mathematical integers with the wrap-around of
    the machine operation written out.  [float64] is IEEE-754 binary64,
    taken from the primitive floats.  [time.Now()] is an input of every
    function that reads the clock. *)

From Stdlib Require Import ZArith List Lia Bool Floats Strings.Byte String.
From stdpp Require Import base numbers list option gmap.
Import ListNotations.

#[local] Open Scope Z_scope.

(** ** Machine integers *)

Module Int64.

Definition min_int : Z := - 2 ^ 63.
Definition max_int : Z := 2 ^ 63 - 1.
Definition modulus : Z := 2 ^ 64.

Definition in_range (z : Z) : Prop := min_int <= z <= max_int.

(** Two's complement reduction: the value an [int64] operation leaves
    when its mathematical result is [z]. *)
Definition wrap (z : Z) : Z := (z - min_int) mod modulus + min_int.

(** Saturation, used by [time.Time.Sub]. *)
Definition saturate (z : Z) : Z := Z.max min_int (Z.min max_int z).

End Int64.

(** ** Time and floating point

    A [time.Time] is a reading of the clock in nanoseconds; a
    [time.Duration] is an [int64] count of nanoseconds. *)

Definition Nanosecond : Z := 1.
Definition Millisecond : Z := 1000000 * Nanosecond.
Definition Second : Z := 1000 * Millisecond.

(** [t.Sub(u)]: the duration [t - u], or the largest (smallest) duration
    when the difference does not fit. *)
Definition time_Sub (t u : Z) : Z := Int64.saturate (t - u).

(** The conversion [float64(x)] of an integer: the binary64 number nearest
    to [x], ties to even. *)
Definition float64 (z : Z) : float :=
  SF2Prim (binary_normalize prec emax z 0 false).

(** ** The data model *)

(** [chan struct{}] on which nothing is ever sent: all that can be observed
    is whether it has been closed. *)
Inductive chan : Set := ChanOpen | ChanClosed.

(** [close(c)] panics on a channel that is already closed. *)
Definition close (c : chan) : option chan :=
  match c with
  | ChanOpen => Some ChanClosed
  | ChanClosed => None
  end.

(** The struct [accounter].  Of [sync.Once] the record keeps the [done]
    flag; its mutex only matters between goroutines and is part of the
    configurations of [Module Conc]. *)
Record accounter : Set := mkAccounter {
  current : Z;
  Total : Z;
  startTime : Z;
  startValue : Z;
  refreshRate : Z;
  currentValue : Z;
  finishOnce : bool;
  isFinished : chan
}.

Definition with_current (v : Z) (a : accounter) : accounter :=
  mkAccounter v (Total a) (startTime a) (startValue a) (refreshRate a)
              (currentValue a) (finishOnce a) (isFinished a).

Definition with_currentValue (v : Z) (a : accounter) : accounter :=
  mkAccounter (current a) (Total a) (startTime a) (startValue a)
              (refreshRate a) v (finishOnce a) (isFinished a).

Definition with_finishOnce (b : bool) (a : accounter) : accounter :=
  mkAccounter (current a) (Total a) (startTime a) (startValue a)
              (refreshRate a) (currentValue a) b (isFinished a).

Definition with_isFinished (c : chan) (a : accounter) : accounter :=
  mkAccounter (current a) (Total a) (startTime a) (startValue a)
              (refreshRate a) (currentValue a) (finishOnce a) c.

(** The struct [accountStat]. *)
Module accountStat.

Record t : Set := mk {
  Total : Z;
  Transferred : Z;
  Speed : float
}.

(** [var acntStat accountStat]: Go's zero value. *)
Definition zero : t := mk 0 0 0%float.

Definition with_Total (v : Z) (s : t) : t := mk v (Transferred s) (Speed s).
Definition with_Transferred (v : Z) (s : t) : t := mk (Total s) v (Speed s).
Definition with_Speed (v : float) (s : t) : t := mk (Total s) (Transferred s) v.

End accountStat.

(** The result of a call that may panic; the state is kept in both cases. *)
Inductive outcome (A : Type) : Type :=
| Ok (v : A) (a : accounter)
| Panic (a : accounter).
Arguments Ok {A} v a.
Arguments Panic {A} a.

Definition state_of {A} (o : outcome A) : accounter :=
  match o with Ok _ a => a | Panic a => a end.

(** ** The methods, one call at a time *)

(** [newAccounter(total)], called when the clock reads [now].  The
    goroutine it starts is [Conc.writer_step]. *)
Definition newAccounter (total now : Z) : accounter :=
  {| current := 0;
     Total := total;
     startTime := now;
     startValue := 0;
     refreshRate := Millisecond * 200;
     currentValue := -1;
     finishOnce := false;
     isFinished := ChanOpen |}.

(** [a.write(current)], the clock reading [now]. *)
Definition write (now : Z) (a : accounter) (cur : Z) : float :=
  let fromStart := time_Sub now (startTime a) in
  let currentFromStart := Int64.wrap (cur - startValue a) in
  if 0 <? currentFromStart
  then (float64 currentFromStart / (float64 fromStart / float64 Second))%float
  else 0%float.

(** The function literal handed to [finishOnce.Do] in [Stat]; [None] is
    the panic of [close]. *)
Definition Stat_body (now : Z) (a : accounter) (acntStat : accountStat.t)
  : option (accountStat.t * accounter) :=
  match close (isFinished a) with
  | None => None
  | Some c =>
      let a := with_isFinished c a in
      let acntStat := accountStat.with_Total (Total a) acntStat in
      let acntStat := accountStat.with_Transferred (current a) acntStat in
      let acntStat := accountStat.with_Speed (write now a (current a)) acntStat in
      Some (acntStat, a)
  end.

(** [a.Stat()].  [Once.Do] runs the body when [done] is unset and sets
    [done] afterwards, also when the body panics. *)
Definition Stat (now : Z) (a : accounter) : outcome accountStat.t :=
  let acntStat := accountStat.zero in
  if finishOnce a then Ok acntStat a
  else
    match Stat_body now a acntStat with
    | Some (acntStat, a) => Ok acntStat (with_finishOnce true a)
    | None => Panic (with_finishOnce true a)
    end.

(** [a.Update()]. *)
Definition Update (now : Z) (a : accounter) : accounter :=
  let c := current a in
  if negb (c =? currentValue a)
  then let _ := write now a c in with_currentValue c a
  else a.

(** [a.Set(n)]: the receiver after the store.  The pointer it returns is
    modelled in [Module Ref]. *)
Definition Set' (n : Z) (a : accounter) : accounter := with_current n a.

(** [a.Add(n)]: [atomic.AddInt64] returns the new value. *)
Definition Add (n : Z) (a : accounter) : Z * accounter :=
  let v := Int64.wrap (current a + n) in (v, with_current v a).

Inductive error : Set := Error (msg : string).

(** [a.Read(p)]: the named results [(n, err)], [err] left at [nil]. *)
Definition Read (p : list byte) (a : accounter) : (Z * option error) * accounter :=
  let n := Z.of_nat (length p) in
  let err : option error := None in
  let '(_, a) := Add n a in
  ((n, err), a).

(** *** Sequences of calls *)

Inductive op : Set :=
| OpAdd (n : Z)
| OpSet (n : Z)
| OpRead (p : list byte)
| OpUpdate (now : Z)
| OpStat (now : Z).

Inductive ret : Set :=
| RetAdd (v : Z)
| RetSet
| RetRead (n : Z) (err : option error)
| RetUpdate
| RetStat (s : accountStat.t).

Definition call (o : op) (a : accounter) : outcome ret :=
  match o with
  | OpAdd n => let '(v, a) := Add n a in Ok (RetAdd v) a
  | OpSet n => Ok RetSet (Set' n a)
  | OpRead p => let '((n, err), a) := Read p a in Ok (RetRead n err) a
  | OpUpdate now => Ok RetUpdate (Update now a)
  | OpStat now =>
      match Stat now a with
      | Ok s a => Ok (RetStat s) a
      | Panic a => Panic a
      end
  end.

(** A panic ends the program: the calls after it do not run. *)
Fixpoint run (os : list op) (a : accounter) : outcome (list ret) :=
  match os with
  | [] => Ok [] a
  | o :: os =>
      match call o a with
      | Ok r a =>
          match run os a with
          | Ok rs a => Ok (r :: rs) a
          | Panic a => Panic a
          end
      | Panic a => Panic a
      end
  end.

Definition is_stat (o : op) : bool :=
  match o with OpStat _ => true | _ => false end.


(** ** Pointers to accounters

    [Set] returns its receiver, a [*accounter].  The heap maps the address
    of each live accounter to its contents. *)

Module Ref.

Abbreviation ptr := positive (only parsing).
Abbreviation heap := (gmap positive accounter) (only parsing).

(** [a.Set(n)] on the pointer [a]; [None] is the fault of a pointer that
    refers to no accounter. *)
Definition Set' (a : ptr) (n : Z) (h : heap) : option (ptr * heap) :=
  match h !! a with
  | Some v => Some (a, <[a := Set' n v]> h)
  | None => None
  end.

End Ref.

(** ** The methods between goroutines

    Every access to the shared accounter is a step of its own.  A client
    goroutine performs a list of calls one after the other; the goroutine
    started by [newAccounter] runs [writer]. *)

Module Conc.

Inductive method : Set :=
| CallAdd (n : Z)
| CallSet (n : Z)
| CallRead (p : list byte)
| CallUpdate
| CallStat.

(** Program points of [Update]. *)
Inductive upd_pc : Set :=
| ULoad                 (* c := atomic.LoadInt64(&a.current) *)
| UCompare (c : Z)      (* if c != a.currentValue *)
| UWrite (c : Z)        (* a.write(c) *)
| UStore (c : Z)        (* a.currentValue = c *)
| UReturn.

(** Program points of [Stat], with [Once.Do] and its slow path unfolded:
    [[
      if atomic.LoadUint32(&o.done) == 0 {
        o.m.Lock(); defer o.m.Unlock()
        if o.done == 0 { defer atomic.StoreUint32(&o.done, 1); f() } }
    ]] *)
Inductive stat_pc : Set :=
| SDo                   (* atomic.LoadUint32(&o.done) == 0 *)
| SLock                 (* o.m.Lock() *)
| SCheck                (* if o.done == 0 *)
| SClose                (* close(a.isFinished) *)
| STotal                (* acntStat.Total = a.Total *)
| STransferred          (* acntStat.Transferred = a.current *)
| SLoad                 (* atomic.LoadInt64(&a.current) *)
| SWrite (c : Z)        (* acntStat.Speed = a.write(c) *)
| SSetDone              (* deferred atomic.StoreUint32(&o.done, 1) *)
| SUnlock               (* deferred o.m.Unlock() *)
| SReturn.              (* return acntStat *)

Inductive pc : Set :=
| Idle
| InUpdate (u : upd_pc)
| InStat (s : stat_pc).

Record goroutine : Set := mkGoroutine {
  todo : list method;
  at_pc : pc;
  acntStat : accountStat.t;
  returned : list ret
}.

Definition spawn (calls : list method) : goroutine :=
  mkGoroutine calls Idle accountStat.zero [].

(** Program points of [writer]. *)
Inductive writer_pc : Set :=
| WUpdate (u : upd_pc)      (* inside a.Update() *)
| WSelect (deadline : Z)    (* select, the timer of time.After due at [deadline] *)
| WExit.                    (* returned *)

Inductive select_case : Set := CaseFinished | CaseTimer.

Record config : Set := mkConfig {
  clock : Z;
  mem : accounter;
  onceM : bool;               (* finishOnce.m is locked *)
  writer : writer_pc;
  pool : list goroutine
}.

Inductive event : Set :=
| EvTau
| EvClose (tid : nat)
| EvReturn (tid : nat) (r : ret)
| EvWriterUpdate
| EvWriterExit.

Inductive action : Set :=
| ARun (tid : nat)              (* goroutine [tid] of the pool moves *)
| AWriter (cs : select_case)    (* the writer moves; [cs] is the case its select takes *)
| ATick (d : N).                (* [d] nanoseconds pass *)

(** One step of [Update]. *)
Definition upd_step (now : Z) (a : accounter) (u : upd_pc) : accounter * upd_pc :=
  match u with
  | ULoad => (a, UCompare (current a))
  | UCompare c => (a, if negb (c =? currentValue a) then UWrite c else UReturn)
  | UWrite c => let _ := write now a c in (a, UStore c)
  | UStore c => (with_currentValue c a, UReturn)
  | UReturn => (a, UReturn)
  end.

Inductive moved (A : Type) : Type :=
| Blocked
| Panicked
| Next (e : event) (x : A).
Arguments Blocked {A}.
Arguments Panicked {A}.
Arguments Next {A} e x.

Definition at_ (p : pc) (g : goroutine) : goroutine :=
  mkGoroutine (todo g) p (acntStat g) (returned g).

Definition with_acntStat (s : accountStat.t) (g : goroutine) : goroutine :=
  mkGoroutine (todo g) (at_pc g) s (returned g).

Definition return_ (r : ret) (rest : list method) (g : goroutine) : goroutine :=
  mkGoroutine rest Idle (acntStat g) (returned g ++ [r]).

(** One step of [Stat] by goroutine [tid]; the shared state is the
    accounter and the mutex of [finishOnce]. *)
Definition stat_step (tid : nat) (now : Z) (a : accounter) (m : bool)
    (g : goroutine) (s : stat_pc) : moved (accounter * bool * goroutine) :=
  match s with
  | SDo =>
      Next EvTau (a, m, at_ (InStat (if finishOnce a then SReturn else SLock)) g)
  | SLock =>
      if m then Blocked else Next EvTau (a, true, at_ (InStat SCheck) g)
  | SCheck =>
      Next EvTau (a, m, at_ (InStat (if finishOnce a then SUnlock else SClose)) g)
  | SClose =>
      match close (isFinished a) with
      | Some c => Next (EvClose tid) (with_isFinished c a, m, at_ (InStat STotal) g)
      | None => Panicked
      end
  | STotal =>
      Next EvTau (a, m, at_ (InStat STransferred)
                          (with_acntStat (accountStat.with_Total (Total a) (acntStat g)) g))
  | STransferred =>
      Next EvTau (a, m, at_ (InStat SLoad)
                          (with_acntStat (accountStat.with_Transferred (current a) (acntStat g)) g))
  | SLoad =>
      Next EvTau (a, m, at_ (InStat (SWrite (current a))) g)
  | SWrite c =>
      Next EvTau (a, m, at_ (InStat SSetDone)
                          (with_acntStat (accountStat.with_Speed (write now a c) (acntStat g)) g))
  | SSetDone =>
      Next EvTau (with_finishOnce true a, m, at_ (InStat SUnlock) g)
  | SUnlock =>
      Next EvTau (a, false, at_ (InStat SReturn) g)
  | SReturn =>
      Next (EvReturn tid (RetStat (acntStat g))) (a, m, return_ (RetStat (acntStat g)) (todo g) g)
  end.

(** One step of a client goroutine.  [Add], [Set] and [Read] touch the
    shared state in a single atomic instruction. *)
Definition goroutine_step (tid : nat) (now : Z) (a : accounter) (m : bool)
    (g : goroutine) : moved (accounter * bool * goroutine) :=
  match at_pc g with
  | Idle =>
      match todo g with
      | [] => Blocked
      | CallAdd n :: rest =>
          let '(v, a) := Add n a in
          Next (EvReturn tid (RetAdd v)) (a, m, return_ (RetAdd v) rest g)
      | CallSet n :: rest =>
          Next (EvReturn tid RetSet) (Set' n a, m, return_ RetSet rest g)
      | CallRead p :: rest =>
          let '((n, err), a) := Read p a in
          Next (EvReturn tid (RetRead n err)) (a, m, return_ (RetRead n err) rest g)
      | CallUpdate :: rest =>
          Next EvTau (a, m, mkGoroutine rest (InUpdate ULoad) (acntStat g) (returned g))
      | CallStat :: rest =>
          Next EvTau (a, m, mkGoroutine rest (InStat SDo) accountStat.zero (returned g))
      end
  | InUpdate UReturn =>
      Next (EvReturn tid RetUpdate) (a, m, return_ RetUpdate (todo g) g)
  | InUpdate u =>
      let '(a, u) := upd_step now a u in Next EvTau (a, m, at_ (InUpdate u) g)
  | InStat s => stat_step tid now a m g s
  end.

(** One step of [writer]. *)
Definition writer_step (cs : select_case) (now : Z) (a : accounter) (w : writer_pc)
  : moved (accounter * writer_pc) :=
  match w with
  | WUpdate UReturn =>
      (* back in the loop: time.After(a.refreshRate) starts its timer *)
      Next EvTau (a, WSelect (now + refreshRate a))
  | WUpdate ULoad =>
      let '(a, u) := upd_step now a ULoad in Next EvWriterUpdate (a, WUpdate u)
  | WUpdate u =>
      let '(a, u) := upd_step now a u in Next EvTau (a, WUpdate u)
  | WSelect deadline =>
      match cs with
      | CaseFinished =>
          match isFinished a with
          | ChanClosed => Next EvWriterExit (a, WExit)
          | ChanOpen => Blocked
          end
      | CaseTimer =>
          if deadline <=? now then Next EvTau (a, WUpdate ULoad) else Blocked
      end
  | WExit => Blocked
  end.

Definition step (x : action) (c : config) : moved config :=
  match x with
  | ARun tid =>
      match pool c !! tid with
      | Some g =>
          match goroutine_step tid (clock c) (mem c) (onceM c) g with
          | Next e (a, m, g) => Next e (mkConfig (clock c) a m (writer c) (<[tid := g]> (pool c)))
          | Blocked => Blocked
          | Panicked => Panicked
          end
      | None => Blocked
      end
  | AWriter cs =>
      match writer_step cs (clock c) (mem c) (writer c) with
      | Next e (a, w) => Next e (mkConfig (clock c) a (onceM c) w (pool c))
      | Blocked => Blocked
      | Panicked => Panicked
      end
  | ATick d =>
      Next EvTau (mkConfig (clock c + Z.of_N d) (mem c) (onceM c) (writer c) (pool c))
  end.

(** A run under a schedule: the events in order and the last
    configuration, or [None] when a goroutine panicked.  An action that is
    not enabled is passed over. *)
Fixpoint exec (sched : list action) (c : config) : option (list event * config) :=
  match sched with
  | [] => Some ([], c)
  | x :: sched =>
      match step x c with
      | Next e c =>
          match exec sched c with
          | Some (tr, c) => Some (e :: tr, c)
          | None => None
          end
      | Blocked => exec sched c
      | Panicked => None
      end
  end.

(** [newAccounter(total)] at time [now], with the client goroutines that
    will use the accounter. *)
Definition init (total now : Z) (clients : list (list method)) : config :=
  {| clock := now;
     mem := newAccounter total now;
     onceM := false;
     writer := WUpdate ULoad;
     pool := map spawn clients |}.

End Conc.

(** ** Vocabulary of the statements *)

(** The snapshot the body of [Stat] computes in state [a] at time [now]. *)
Definition snapshot (now : Z) (a : accounter) : accountStat.t :=
  accountStat.mk (Total a) (current a) (write now a (current a)).

(** The accounter after the body of [Stat] has run. *)
Definition finished (a : accounter) : accounter :=
  with_finishOnce true (with_isFinished ChanClosed a).

Definition Zsum (ns : list Z) : Z := fold_right Z.add 0 ns.

(** The values [acc + n1], [acc + n1 + n2], ... *)
Fixpoint running_totals (acc : Z) (ns : list Z) : list Z :=
  match ns with
  | [] => []
  | n :: ns => (acc + n) :: running_totals (acc + n) ns
  end.

(** The once-latch and the channel agree: the channel is closed by the
    body of [Stat] and by nothing else. *)
Definition latch_ok (a : accounter) : Prop :=
  finishOnce a = false -> isFinished a = ChanOpen.

(** A call that cannot lower [current]: an addition that is not negative
    and does not overflow, or a store of a value that is not smaller. *)
Definition raises (o : op) (a : accounter) : Prop :=
  match o with
  | OpAdd n => 0 <= n /\ current a + n <= Int64.max_int
  | OpRead p => current a + Z.of_nat (length p) <= Int64.max_int
  | OpSet n => current a <= n
  | OpUpdate _ | OpStat _ => True
  end.

Fixpoint all_raise (os : list op) (a : accounter) : Prop :=
  match os with
  | [] => True
  | o :: os => raises o a /\ all_raise os (state_of (call o a))
  end.

Definition stat_is_zero (r : ret) : Prop :=
  match r with
  | RetStat s => s = accountStat.zero
  | _ => True
  end.

(** *** Vocabulary for the runs between goroutines *)

Module ConcSpec.
Import Conc.

(** The goroutine is between [o.m.Lock()] and [o.m.Unlock()]. *)
Definition holds_lock (g : goroutine) : bool :=
  match at_pc g with
  | InStat (SCheck | SClose | STotal | STransferred | SLoad | SWrite _ | SSetDone | SUnlock) => true
  | _ => false
  end.

(** The goroutine is inside the function literal of [Stat], or about to
    mark the latch. *)
Definition in_body (g : goroutine) : bool :=
  match at_pc g with
  | InStat (SClose | STotal | STransferred | SLoad | SWrite _ | SSetDone) => true
  | _ => false
  end.

(** ... and has closed the channel already. *)
Definition after_close (g : goroutine) : bool :=
  match at_pc g with
  | InStat (STotal | STransferred | SLoad | SWrite _ | SSetDone) => true
  | _ => false
  end.

(** The goroutine is past [Once.Do]'s test of [done]. *)
Definition leaving (g : goroutine) : bool :=
  match at_pc g with
  | InStat (SUnlock | SReturn) => true
  | _ => false
  end.

Fixpoint count (f : goroutine -> bool) (gs : list goroutine) : nat :=
  match gs with
  | [] => 0
  | g :: gs => Nat.b2n (f g) + count f gs
  end.

Definition is_closed (c : chan) : bool :=
  match c with ChanClosed => true | ChanOpen => false end.

Definition stopped (c : config) : bool := is_closed (isFinished (mem c)).

Definition ev_close (e : event) : nat :=
  match e with EvClose _ => 1 | _ => 0 end.

(** How many times [close(a.isFinished)] ran. *)
Definition closes (tr : list event) : nat :=
  fold_right (fun e k => ev_close e + k)%nat 0%nat tr.

Definition writer_event (e : event) : Prop :=
  e = EvWriterUpdate \/ e = EvWriterExit.

(** What holds of the latch, its mutex and the channel in every reachable
    configuration, [kL], [kB], [kA] and [kV] counting the goroutines other
    than [g] that hold the lock, are in the body, have closed the channel,
    and are leaving. *)
Definition inv_at (a : accounter) (m : bool) (kL kB kA kV : nat) (g : goroutine) : Prop :=
  (kA <= kB)%nat /\ (kB <= kL)%nat /\
  (kL + Nat.b2n (holds_lock g))%nat = Nat.b2n m /\
  (finishOnce a = true -> (kB + Nat.b2n (in_body g))%nat = 0%nat) /\
  Nat.b2n (is_closed (isFinished a))
    = (Nat.b2n (finishOnce a) + (kA + Nat.b2n (after_close g)))%nat /\
  (is_closed (isFinished a) = false -> (kV + Nat.b2n (leaving g))%nat = 0%nat).

Definition inv (c : config) : Prop :=
  count holds_lock (pool c) = Nat.b2n (onceM c) /\
  (finishOnce (mem c) = true -> count in_body (pool c) = 0%nat) /\
  Nat.b2n (stopped c)
    = (Nat.b2n (finishOnce (mem c)) + count after_close (pool c))%nat /\
  (stopped c = false -> count leaving (pool c) = 0%nat).

(** Some call of [Stat] has returned. *)
Definition stat_returns (tr : list event) : Prop :=
  exists tid s, In (EvReturn tid (RetStat s)) tr.

(** A schedule for two goroutines that call [Stat] at once while the writer
    runs: the timer of the writer fires after 200ms; goroutine 0 takes the
    lock, goroutine 1 waits for it; goroutine 0 closes the channel while
    the writer is in [Update]; back at its select the writer takes the
    closed channel. *)
Definition two_stats : list action :=
  repeat (AWriter CaseTimer) 5
  ++ [ATick 200000000; AWriter CaseTimer]
  ++ [ARun 0; ARun 0; ARun 0; ARun 1; ARun 1; ARun 1; ARun 0; ARun 0]
  ++ [AWriter CaseTimer]
  ++ repeat (ARun 0) 7
  ++ repeat (ARun 1) 4
  ++ [AWriter CaseTimer; AWriter CaseTimer; AWriter CaseTimer;
      AWriter CaseFinished; ATick 300000000; AWriter CaseTimer].

(** The amount a call adds to the progress. *)
Definition amount (m : method) : Z :=
  match m with
  | CallAdd n => n
  | CallRead p => Z.of_nat (length p)
  | CallSet _ | CallUpdate | CallStat => 0
  end.

Definition is_set (m : method) : bool :=
  match m with CallSet _ => true | _ => false end.

(** The amounts of the calls a goroutine has not made yet. *)
Definition pending (g : goroutine) : Z := Zsum (map amount (todo g)).

Definition pending_all (gs : list goroutine) : Z := Zsum (map pending gs).

Definition amounts (clients : list (list method)) : Z :=
  Zsum (map (fun ms => Zsum (map amount ms)) clients).

Definition never_sets (gs : list goroutine) : Prop :=
  Forall (fun g => Forall (fun m => is_set m = false) (todo g)) gs.

(** The goroutine that has closed the channel and has not returned from
    that call of [Stat] yet, event by event. *)
Definition owes (o : option nat) (e : event) : option nat :=
  match e with
  | EvClose tid => Some tid
  | EvReturn tid (RetStat _) =>
      match o with
      | Some t => if Nat.eqb t tid then None else o
      | None => None
      end
  | _ => o
  end.

Definition owed (tr : list event) : option nat := fold_left owes tr None.

(** What goroutine [i] holds in its local [acntStat] while inside [Stat]:
    the zero value, unless it is the goroutine that ran the body. *)
Definition slot_ok (o : option nat) (i : nat) (g : goroutine) : Prop :=
  match at_pc g with
  | InStat _ =>
      if after_close g then o = Some i
      else if leaving g then acntStat g = accountStat.zero \/ o = Some i
      else acntStat g = accountStat.zero
  | _ => True
  end.

Definition slots_ok (o : option nat) (c : config) : Prop :=
  (forall i g, pool c !! i = Some g -> slot_ok o i g) /\
  (o <> None -> stopped c = true).

Definition by_goroutine (i : nat) (e : event) : Prop :=
  e = EvTau \/ e = EvClose i \/ exists r, e = EvReturn i r.

End ConcSpec.

(** *** Vocabulary for further properties *)

Module MoreSpec.
Import Conc ConcSpec.

Definition is_update (o : op) : bool :=
  match o with OpUpdate _ => true | _ => false end.

Definition is_update_ret (r : ret) : bool :=
  match r with RetUpdate => true | _ => false end.

(** A sequence of calls with its calls of [Update] left out, and the
    results of the calls that remain. *)
Definition without_updates (os : list op) : list op :=
  List.filter (fun o => negb (is_update o)) os.

Definition without_update_rets (rs : list ret) : list ret :=
  List.filter (fun r => negb (is_update_ret r)) rs.

(** Two accounters that differ at most in [currentValue]. *)
Definition same_but_cache (a b : accounter) : Prop :=
  with_currentValue 0 a = with_currentValue 0 b.

Definition is_set_op (o : op) : bool :=
  match o with OpSet _ => true | _ => false end.

(** The amount a call adds to the progress. *)
Definition op_amount (o : op) : Z :=
  match o with
  | OpAdd n => n
  | OpRead p => Z.of_nat (length p)
  | OpSet _ | OpUpdate _ | OpStat _ => 0
  end.

Definition op_amounts (os : list op) : Z := Zsum (map op_amount os).

Definition is_stat_call (m : method) : bool :=
  match m with CallStat => true | _ => false end.

Definition in_Stat (g : goroutine) : bool :=
  match at_pc g with InStat _ => true | _ => false end.

(** Goroutine [j] of the pool can make a step. *)
Definition can_step (j : nat) (c : config) : Prop :=
  exists e c', step (ARun j) c = Next e c'.

Definition ev_writer_update (e : event) : nat :=
  match e with EvWriterUpdate => 1 | _ => 0 end.

(** How many times the writer started [a.Update()]. *)
Definition writer_updates (tr : list event) : nat :=
  fold_right (fun e k => ev_writer_update e + k)%nat 0%nat tr.

(** The writer, having started [n] updates, is not ahead of the clock:
    update number [k] starts no earlier than [k - 1] refresh intervals
    after [t0]. *)
Definition paced (t0 : Z) (n : nat) (c : config) : Prop :=
  let R := refreshRate (mem c) in
  match writer c with
  | WUpdate ULoad => Z.of_nat n * R <= clock c - t0
  | WUpdate _ | WExit => (Z.of_nat n - 1) * R <= clock c - t0
  | WSelect deadline =>
      Z.of_nat n * R <= deadline - t0 /\ (Z.of_nat n - 1) * R <= clock c - t0
  end.

(** No client is in [Stat] or will call it, the channel is open and the
    writer is running. *)
Definition no_Stat_yet (c : config) : Prop :=
  Forall (fun g => in_Stat g = false /\
                   Forall (fun m => is_stat_call m = false) (todo g)) (pool c) /\
  isFinished (mem c) = ChanOpen /\
  writer c <> WExit.

(** The fields that [newAccounter] sets once. *)
Definition constants (total t0 : Z) (a : accounter) : Prop :=
  Total a = total /\ startTime a = t0 /\ startValue a = 0 /\
  refreshRate a = Millisecond * 200.

(** The [Total] a goroutine holds in its local [acntStat]: that of the
    accounter, or the zero of a fresh [accountStat]. *)
Definition reports (total : Z) (g : goroutine) : Prop :=
  accountStat.Total (acntStat g) = total \/ accountStat.Total (acntStat g) = 0.

End MoreSpec.

(** * Properties *)

(** ** Machine integers *)

Module Int64Facts.
Import Int64.

Lemma wrap_in_range z : in_range (wrap z).
Proof.
  unfold in_range, wrap, min_int, max_int, modulus.
  pose proof (Z.mod_pos_bound (z - - 2 ^ 63) (2 ^ 64)). lia.
Qed.

Lemma wrap_id z : in_range z -> wrap z = z.
Proof.
  unfold in_range, wrap, min_int, max_int, modulus. intros Hz.
  rewrite Z.mod_small; lia.
Qed.

Lemma wrap_wrap_add x y : wrap (wrap x + y) = wrap (x + y).
Proof.
  unfold wrap, min_int, modulus.
  replace ((x - - 2 ^ 63) mod 2 ^ 64 + - 2 ^ 63 + y - - 2 ^ 63)
    with ((x - - 2 ^ 63) mod 2 ^ 64 + y) by lia.
  replace (x + y - - 2 ^ 63) with ((x - - 2 ^ 63) + y) by lia.
  now rewrite Zplus_mod_idemp_l.
Qed.

Lemma saturate_in_range z : in_range (saturate z).
Proof. unfold in_range, saturate, min_int, max_int. lia. Qed.

Lemma saturate_id z : in_range z -> saturate z = z.
Proof. unfold in_range, saturate, min_int, max_int. lia. Qed.

Lemma zero_in_range : in_range 0.
Proof. unfold in_range, min_int, max_int. lia. Qed.

End Int64Facts.

(** ** One call at a time *)

Section Sequential.

Implicit Types (a : accounter) (now n : Z) (os : list op).

(** *** [Stat] *)

Lemma Stat_done now a :
  finishOnce a = true -> Stat now a = Ok accountStat.zero a.
Proof. intros H. unfold Stat. now rewrite H. Qed.

Lemma Stat_first now a :
  finishOnce a = false -> isFinished a = ChanOpen ->
  Stat now a = Ok (snapshot now a) (finished a).
Proof.
  intros Hd Hc. unfold Stat, Stat_body. rewrite Hd, Hc. reflexivity.
Qed.

Lemma Stat_state now a :
  state_of (Stat now a) = if finishOnce a then a else finished a.
Proof.
  unfold Stat, Stat_body, finished.
  destruct a as [c t st sv rr cv [] []]; reflexivity.
Qed.

Lemma Stat_latch_ok now a : latch_ok a -> exists s, Stat now a = Ok s (state_of (Stat now a)).
Proof.
  intros H. destruct (finishOnce a) eqn:Hd.
  - rewrite (Stat_done _ _ Hd). eauto.
  - rewrite (Stat_first _ _ Hd (H Hd)). eauto.
Qed.

(** *** What a call leaves alone *)

Lemma call_latch_ok o a : latch_ok a -> latch_ok (state_of (call o a)).
Proof.
  unfold latch_ok. destruct o as [n|n|p|t|t]; simpl; try tauto.
  - unfold Update. destruct (negb _); simpl; tauto.
  - intros H.
    replace (state_of match Stat t a with Ok s a0 => Ok (RetStat s) a0 | Panic a0 => Panic a0 end)
      with (state_of (Stat t a)) by (destruct (Stat t a); reflexivity).
    rewrite Stat_state. destruct (finishOnce a) eqn:Hd; [congruence|].
    simpl. discriminate.
Qed.

Lemma call_ok o a : latch_ok a -> exists r, call o a = Ok r (state_of (call o a)).
Proof.
  intros H. destruct o as [n|n|p|t|t]; simpl; eauto.
  destruct (Stat_latch_ok t a H) as [s Hs]. rewrite Hs. simpl. eauto.
Qed.

Lemma run_ok os : forall a, latch_ok a -> exists rs, run os a = Ok rs (state_of (run os a)).
Proof.
  induction os as [|o os IH]; intros a H; simpl; [eauto|].
  destruct (call_ok o a H) as [r Hr]. pose proof (call_latch_ok o a H) as H'.
  rewrite Hr in *. simpl in H'.
  destruct (IH _ H') as [rs Hrs]. rewrite Hrs. simpl. eauto.
Qed.

Lemma run_app os1 : forall os2 a rs1 a1,
  run os1 a = Ok rs1 a1 ->
  run (os1 ++ os2) a =
    match run os2 a1 with
    | Ok rs2 a2 => Ok (rs1 ++ rs2) a2
    | Panic a2 => Panic a2
    end.
Proof.
  induction os1 as [|o os1 IH]; intros os2 a rs1 a1; simpl.
  - intros [= <- <-]. destruct (run os2 a); reflexivity.
  - destruct (call o a) as [r a'|a']; [|discriminate].
    destruct (run os1 a') as [rs a''|a''] eqn:Hrun; [|discriminate].
    intros [= <- <-]. rewrite (IH os2 _ _ _ Hrun).
    destruct (run os2 a''); reflexivity.
Qed.

Lemma newAccounter_latch_ok total now : latch_ok (newAccounter total now).
Proof. unfold latch_ok. reflexivity. Qed.

Lemma call_finishOnce o a :
  finishOnce a = true -> finishOnce (state_of (call o a)) = true.
Proof.
  intros H. destruct o as [n|n|p|t|t]; simpl; auto.
  - unfold Update. destruct (negb _); simpl; auto.
  - rewrite (Stat_done _ _ H). exact H.
Qed.

Lemma call_no_stat_latch o a :
  is_stat o = false ->
  finishOnce (state_of (call o a)) = finishOnce a /\
  isFinished (state_of (call o a)) = isFinished a.
Proof.
  destruct o as [n|n|p|t|t]; simpl; try discriminate; intros _; auto.
  unfold Update. destruct (negb _); simpl; auto.
Qed.

Lemma run_no_stat os : forall a,
  Forall (fun o => is_stat o = false) os ->
  finishOnce (state_of (run os a)) = finishOnce a /\
  isFinished (state_of (run os a)) = isFinished a /\
  exists rs, run os a = Ok rs (state_of (run os a)).
Proof.
  induction os as [|o os IH]; intros a H; simpl; [eauto|].
  inversion H as [|? ? Ho Hos]; subst.
  destruct (call_no_stat_latch o a Ho) as [Hf Hc].
  assert (exists r, call o a = Ok r (state_of (call o a))) as [r Hr].
  { destruct o; simpl in *; try discriminate; eauto. }
  rewrite Hr in *. simpl in *.
  destruct (IH (state_of (call o a)) Hos) as (Hf' & Hc' & rs & Hrs).
  rewrite Hrs. simpl. repeat split; try congruence. eauto.
Qed.

Lemma run_after_done os : forall a,
  finishOnce a = true ->
  exists rs, run os a = Ok rs (state_of (run os a)) /\ Forall stat_is_zero rs.
Proof.
  induction os as [|o os IH]; intros a H; simpl; [eauto|].
  pose proof (call_finishOnce o a H) as H'.
  assert (exists r, call o a = Ok r (state_of (call o a)) /\ stat_is_zero r)
    as (r & Hr & Hz).
  { destruct o as [n|n|p|t|t]; simpl; unfold Read, Add; simpl;
      try (eexists; split; [reflexivity|exact I]).
    rewrite (Stat_done _ _ H). simpl. eexists; split; reflexivity. }
  rewrite Hr in *. simpl in *.
  destruct (IH _ H') as (rs & Hrs & Hall). rewrite Hrs. simpl. eauto.
Qed.

(** In a sequence of calls on a new accounter, the first [Stat] returns the
    snapshot of the state it finds and every later one the zero value. *)
Lemma run_first_Stat (total t0 now : Z) (before after : list op) :
  Forall (fun o => is_stat o = false) before ->
  exists rs a rs' a',
    run before (newAccounter total t0) = Ok rs a /\
    run (before ++ OpStat now :: after) (newAccounter total t0)
      = Ok (rs ++ RetStat (snapshot now a) :: rs') a' /\
    Forall stat_is_zero rs'.
Proof.
  intros Hb.
  destruct (run_no_stat before (newAccounter total t0) Hb) as (Hf & Hc & rs & Hrs).
  set (a := state_of (run before (newAccounter total t0))) in *.
  simpl in Hf, Hc.
  destruct (run_after_done after (finished a) eq_refl) as (rs' & Hrs' & Hz).
  exists rs, a, rs', (state_of (run after (finished a))).
  split; [exact Hrs|]. split; [|exact Hz].
  rewrite (run_app _ _ _ _ _ Hrs). simpl.
  rewrite (Stat_first _ _ Hf Hc), Hrs'. reflexivity.
Qed.

(** C1, as stated, fails: after [Add(1000)] on an accounter of total 100, a
    first [Stat] two seconds after the start returns (100, 1000, 500.0) and
    a second [Stat] returns (0, 0, 0.0). *)
Lemma Stat_repeat_differs :
  exists a1 a2,
    Stat (2 * Second) (snd (Add 1000 (newAccounter 100 0)))
      = Ok (accountStat.mk 100 1000 500%float) a1 /\
    Stat (3 * Second) a1 = Ok accountStat.zero a2 /\
    accountStat.mk 100 1000 500%float <> accountStat.zero.
Proof.
  eexists. eexists. split; [|split].
  - vm_compute. reflexivity.
  - vm_compute. reflexivity.
  - intros H. discriminate H.
Qed.

(** *** [Add] *)

Lemma with_current_id a : with_current (current a) a = a.
Proof. destruct a; reflexivity. Qed.

Lemma with_current_twice v w a : with_current v (with_current w a) = with_current v a.
Proof. reflexivity. Qed.

Lemma Add_wraps n a :
  Add n a = (Int64.wrap (current a + n), with_current (Int64.wrap (current a + n)) a).
Proof. reflexivity. Qed.

Lemma Add_exact n a :
  Int64.min_int <= current a -> 0 <= n -> current a + n <= Int64.max_int ->
  Add n a = (current a + n, with_current (current a + n) a).
Proof.
  intros Hlo Hn Hhi. rewrite Add_wraps, Int64Facts.wrap_id; [reflexivity|].
  unfold Int64.in_range. lia.
Qed.

Lemma Zsum_nonneg ns : Forall (fun n => 0 <= n) ns -> 0 <= Zsum ns.
Proof. induction 1; simpl; lia. Qed.

(** C2, as amended.  As long as the total stays within [int64], adding
    amounts that are not negative accumulates their sum: from a state with
    progress [current a], the calls [Add(n1)], [Add(n2)], ... return
    [current a + n1], [current a + n1 + n2], ... and leave the progress at
    [current a] plus the sum of all amounts.  On a new accounter
    [current a] is 0, so the final progress is the sum. *)
Theorem Add_accumulates (a : accounter) (ns : list Z) :
  Int64.min_int <= current a ->
  Forall (fun n => 0 <= n) ns ->
  current a + Zsum ns <= Int64.max_int ->
  run (map OpAdd ns) a
    = Ok (map RetAdd (running_totals (current a) ns))
         (with_current (current a + Zsum ns) a) /\
  current (state_of (run (map OpAdd ns) a)) = current a + Zsum ns.
Proof.
  intros Hlo Hns Hhi.
  assert (run (map OpAdd ns) a
          = Ok (map RetAdd (running_totals (current a) ns))
               (with_current (current a + Zsum ns) a)) as Hrun.
  { revert a Hlo Hhi. induction Hns as [|n ns Hn Hns IH]; intros a Hlo Hhi; simpl.
    - now rewrite Z.add_0_r, with_current_id.
    - simpl in Hhi. pose proof (Zsum_nonneg ns Hns) as Hs.
      rewrite (Int64Facts.wrap_id (current a + n)) by (unfold Int64.in_range; lia).
      rewrite (IH (with_current (current a + n) a)); simpl; try lia.
      rewrite with_current_twice. do 2 f_equal. lia. }
  split; [exact Hrun|]. now rewrite Hrun.
Qed.

Lemma Add_accumulates_witness :
  run (map OpAdd [3; 4; 5]) (newAccounter 7 0)
    = Ok (map RetAdd (running_totals 0 [3; 4; 5]))
         (with_current (0 + Zsum [3; 4; 5]) (newAccounter 7 0)) /\
  current (state_of (run (map OpAdd [3; 4; 5]) (newAccounter 7 0))) = 0 + Zsum [3; 4; 5].
Proof.
  apply (Add_accumulates (newAccounter 7 0) [3; 4; 5]).
  - simpl. unfold Int64.min_int. lia.
  - repeat constructor; lia.
  - simpl. unfold Int64.max_int. lia.
Defined.

(** C2, as stated, fails: [Add(2^63 - 1)] and then [Add(1)] on a new
    accounter leave the progress at [-2^63], while the amounts sum to
    [2^63]. *)
Lemma Add_sum_overflows :
  Forall (fun n => 0 <= n) [Int64.max_int; 1] /\
  Add 1 (snd (Add Int64.max_int (newAccounter 0 0)))
    = (Int64.min_int, with_current Int64.min_int (newAccounter 0 0)) /\
  current (state_of (run (map OpAdd [Int64.max_int; 1]) (newAccounter 0 0)))
    <> Zsum [Int64.max_int; 1].
Proof.
  split; [|split].
  - repeat constructor; unfold Int64.max_int; lia.
  - vm_compute. reflexivity.
  - vm_compute. discriminate.
Qed.

(** *** Fields that no call changes, and the range of the progress *)



Lemma run_cons_state o os a :
  latch_ok a -> state_of (run (o :: os) a) = state_of (run os (state_of (call o a))).
Proof.
  intros H. simpl. destruct (call_ok o a H) as [r Hr]. rewrite Hr. simpl.
  destruct (run os _); reflexivity.
Qed.

Lemma run_latch_ok os : forall a, latch_ok a -> latch_ok (state_of (run os a)).
Proof.
  induction os as [|o os IH]; intros a H; [exact H|].
  rewrite run_cons_state by exact H. apply IH, call_latch_ok, H.
Qed.

Lemma run_app_state os1 : forall os2 a,
  latch_ok a ->
  state_of (run (os1 ++ os2) a) = state_of (run os2 (state_of (run os1 a))).
Proof.
  induction os1 as [|o os1 IH]; intros os2 a H; [reflexivity|].
  rewrite <- app_comm_cons, !run_cons_state by exact H.
  apply IH, call_latch_ok, H.
Qed.


(** *** The speed *)

Lemma write_nonpositive now a cur :
  Int64.wrap (cur - startValue a) <= 0 -> write now a cur = 0%float.
Proof.
  intros H. unfold write.
  destruct (0 <? Int64.wrap (cur - startValue a)) eqn:E; [|reflexivity].
  apply Z.ltb_lt in E. lia.
Qed.




(** A thousand bytes in two seconds are five hundred bytes per second. *)
Example thousand_bytes_in_two_seconds :
  Stat (2 * Second) (snd (Add 1000 (newAccounter 100 0)))
    = Ok (accountStat.mk 100 1000 500%float)
         (finished (snd (Add 1000 (newAccounter 100 0)))).
Proof. vm_compute. reflexivity. Qed.

(** *** Monotonicity *)

Lemma call_raises o a :
  Int64.min_int <= current a -> raises o a ->
  current a <= current (state_of (call o a)).
Proof.
  intros Hlo. destruct o as [n|n|p|t|t]; simpl.
  - intros [Hn Hhi]. rewrite Int64Facts.wrap_id; unfold Int64.in_range; lia.
  - lia.
  - intros Hhi. rewrite Int64Facts.wrap_id; unfold Int64.in_range; lia.
  - intros _. unfold Update. destruct (negb _); simpl; lia.
  - intros _.
    replace (state_of match Stat t a with Ok s a0 => Ok (RetStat s) a0 | Panic a0 => Panic a0 end)
      with (state_of (Stat t a)) by (destruct (Stat t a); reflexivity).
    rewrite Stat_state. destruct (finishOnce a); simpl; lia.
Qed.

Lemma run_raises os : forall a,
  latch_ok a -> Int64.min_int <= current a -> all_raise os a ->
  current a <= current (state_of (run os a)).
Proof.
  induction os as [|o os IH]; intros a Hl Hlo Hall; [simpl; lia|].
  destruct Hall as [Ho Hos]. rewrite run_cons_state by exact Hl.
  pose proof (call_raises o a Hlo Ho) as Hstep.
  specialize (IH _ (call_latch_ok o a Hl) ltac:(lia) Hos). lia.
Qed.

Lemma all_raise_app os1 : forall os2 a,
  latch_ok a -> all_raise (os1 ++ os2) a ->
  all_raise os1 a /\ all_raise os2 (state_of (run os1 a)).
Proof.
  induction os1 as [|o os1 IH]; intros os2 a Hl H; [simpl; auto|].
  destruct H as [Ho H]. rewrite run_cons_state by exact Hl.
  destruct (IH os2 _ (call_latch_ok o a Hl) H) as [H1 H2].
  simpl. auto.
Qed.

(** C4, as amended.  Along a sequence of calls in which every [Add] has an
    amount that is not negative, no [Add] or [Read] takes the progress above
    [2^63 - 1], and every [Set(n)] has [n] at least the progress at that
    moment, the progress never decreases: it is at least as large after any
    longer prefix of the sequence as after a shorter one.  [Update] and
    [Stat] are unrestricted. *)
Theorem progress_never_decreases (a : accounter) (os1 os2 : list op) :
  latch_ok a ->
  Int64.min_int <= current a ->
  all_raise (os1 ++ os2) a ->
  current (state_of (run os1 a)) <= current (state_of (run (os1 ++ os2) a)).
Proof.
  intros Hl Hlo Hall.
  destruct (all_raise_app os1 os2 a Hl Hall) as [H1 H2].
  rewrite run_app_state by exact Hl.
  pose proof (run_raises os1 a Hl Hlo H1).
  apply run_raises; [apply run_latch_ok, Hl|lia|exact H2].
Qed.

Lemma progress_never_decreases_witness :
  current (state_of (run [OpAdd 5; OpSet 9] (newAccounter 0 0)))
  <= current (state_of (run ([OpAdd 5; OpSet 9] ++ [OpStat 7; OpRead [x00; x01]; OpUpdate 8])
                            (newAccounter 0 0))).
Proof.
  apply (progress_never_decreases (newAccounter 0 0)
           [OpAdd 5; OpSet 9] [OpStat 7; OpRead [x00; x01]; OpUpdate 8]).
  - apply newAccounter_latch_ok.
  - simpl. unfold Int64.min_int. lia.
  - vm_compute. intuition discriminate.
Defined.

(** C4, as stated, fails: [Set(500)] and then [Set(300)] on a new accounter
    lower the progress from 500 to 300. *)
Lemma Set_lowers_progress :
  current (state_of (run [OpSet 500] (newAccounter 0 0))) = 500 /\
  current (state_of (run [OpSet 500; OpSet 300] (newAccounter 0 0))) = 300 /\
  ~ current (state_of (run [OpSet 500] (newAccounter 0 0)))
    <= current (state_of (run [OpSet 500; OpSet 300] (newAccounter 0 0))).
Proof. vm_compute. repeat split; auto. Qed.

(** *** [Read] *)

(** C7, as amended.  [Read(p)] on a buffer of length [L] returns [(L, nil)]
    in every state; it leaves the progress at the [int64] sum of the
    progress and [L], which is the progress plus exactly [L] whenever that
    does not exceed [2^63 - 1]. *)
Theorem Read_accounts (p : list byte) (a : accounter) :
  fst (Read p a) = (Z.of_nat (length p), None) /\
  snd (Read p a) = with_current (Int64.wrap (current a + Z.of_nat (length p))) a /\
  (Int64.min_int <= current a ->
   current a + Z.of_nat (length p) <= Int64.max_int ->
   current (snd (Read p a)) = current a + Z.of_nat (length p)).
Proof.
  split; [reflexivity|]. split; [reflexivity|].
  intros Hlo Hhi. simpl. apply Int64Facts.wrap_id. unfold Int64.in_range. lia.
Qed.

Lemma Read_accounts_witness :
  fst (Read (repeat x00 42) (newAccounter 0 0)) = (42, None) /\
  current (snd (Read (repeat x00 42) (newAccounter 0 0))) = 0 + 42.
Proof.
  destruct (Read_accounts (repeat x00 42) (newAccounter 0 0)) as (Hret & _ & Hcur).
  split; [exact Hret|].
  apply Hcur; simpl; unfold Int64.min_int, Int64.max_int; lia.
Defined.

(** C7, as stated, fails: with the progress at [2^63 - 1], reading a buffer
    of one byte leaves the progress at [-2^63], not at [2^63]. *)
Lemma Read_overflows :
  Read [x00] (Set' Int64.max_int (newAccounter 0 0))
    = ((1, None), with_current Int64.min_int (newAccounter 0 0)) /\
  current (snd (Read [x00] (Set' Int64.max_int (newAccounter 0 0))))
    <> current (Set' Int64.max_int (newAccounter 0 0)) + 1.
Proof.
  split.
  - vm_compute. reflexivity.
  - vm_compute. discriminate.
Qed.

(** *** [Set] *)

(** C8.  [Set(n)] stores [n] as the progress whatever the progress was, and
    changes no other field; [Set(500)] followed by [Set(300)] leaves 300.
    On pointers, [Set] returns the pointer it was called on, so that
    [a.Set(500).Set(300)] performs both stores on the accounter at [a]. *)
Theorem Set_overwrites (n : Z) (a : accounter) (p : positive)
    (h : gmap positive accounter) :
  call (OpSet n) a = Ok RetSet (Set' n a) /\
  current (Set' n a) = n /\
  Set' n a = mkAccounter n (Total a) (startTime a) (startValue a) (refreshRate a)
                         (currentValue a) (finishOnce a) (isFinished a) /\
  current (Set' 300 (Set' 500 a)) = 300 /\
  Ref.Set' p n (<[p := a]> h) = Some (p, <[p := Set' n a]> h) /\
  (Ref.Set' p 500 (<[p := a]> h) ≫= fun '(q, h') => Ref.Set' q 300 h')
    = Some (p, <[p := Set' 300 a]> h).
Proof.
  assert (forall m b, Ref.Set' p m (<[p := b]> h) = Some (p, <[p := Set' m b]> h)) as Hset.
  { intros m b. unfold Ref.Set'. now rewrite lookup_insert_eq, insert_insert_eq. }
  repeat split; try reflexivity.
  - apply Hset.
  - rewrite Hset. simpl. rewrite Hset. reflexivity.
Qed.

(** *** [Update] *)

Lemma Update_only_currentValue now a :
  Update now a = with_currentValue (current a) a.
Proof.
  unfold Update. destruct (current a =? currentValue a) eqn:E; simpl; [|reflexivity].
  apply Z.eqb_eq in E. rewrite E. destruct a; reflexivity.
Qed.

Lemma run_updates ts : forall a,
  exists a',
    run (map OpUpdate ts) a = Ok (map (fun _ => RetUpdate) ts) a' /\
    current a' = current a /\ Total a' = Total a /\
    startTime a' = startTime a /\ startValue a' = startValue a /\
    finishOnce a' = finishOnce a /\ isFinished a' = isFinished a.
Proof.
  induction ts as [|t ts IH]; intros a; simpl.
  - exists a. repeat split.
  - destruct (IH (Update t a)) as (a' & Hrun & H1 & H2 & H3 & H4 & H5 & H6).
    exists a'. rewrite Hrun. rewrite Update_only_currentValue in *.
    simpl in *. repeat split; assumption.
Qed.

(** C9.  On a new accounter of total [total] on which only [Update] has
    been called (as the writer goroutine does), at any times, [Stat]
    returns the snapshot [(total, 0, 0.0)]. *)
Theorem Stat_without_progress (total t0 now : Z) (ts : list Z) :
  exists a a',
    run (map OpUpdate ts) (newAccounter total t0)
      = Ok (map (fun _ => RetUpdate) ts) a /\
    Stat now a = Ok (accountStat.mk total 0 0%float) a'.
Proof.
  destruct (run_updates ts (newAccounter total t0))
    as (a & Hrun & Hc & Ht & Hst & Hsv & Hf & Hch).
  exists a, (finished a). split; [exact Hrun|].
  rewrite (Stat_first now a Hf Hch). unfold snapshot.
  rewrite write_nonpositive.
  - rewrite Hc, Ht. reflexivity.
  - rewrite Hc, Hsv. vm_compute. discriminate.
Qed.

(** *** The frame of [Stat] *)

Lemma Stat_fields now a :
  current (state_of (Stat now a)) = current a /\
  Total (state_of (Stat now a)) = Total a /\
  startTime (state_of (Stat now a)) = startTime a /\
  startValue (state_of (Stat now a)) = startValue a /\
  refreshRate (state_of (Stat now a)) = refreshRate a /\
  currentValue (state_of (Stat now a)) = currentValue a.
Proof. rewrite Stat_state. destruct (finishOnce a); repeat split. Qed.

Lemma run_stat_state t ts a :
  state_of (run (map OpStat (t :: ts)) a) =
    match Stat t a with
    | Ok _ a' => state_of (run (map OpStat ts) a')
    | Panic a' => a'
    end.
Proof.
  simpl. destruct (Stat t a) as [s a'|a']; [|reflexivity].
  destruct (run _ a'); reflexivity.
Qed.

(** C10.  [Stat] changes nothing of the accounter but the once-latch and
    the stop channel: the state after one call is the state before it if
    the latch was consumed already, and otherwise the state before it with
    the latch consumed and the channel closed.  After any number of calls
    of [Stat] the progress, [Total], [startTime], [startValue] and
    [refreshRate] are what they were (and so is [currentValue]). *)
Theorem Stat_frame (a : accounter) (now : Z) (nows : list Z) :
  state_of (Stat now a) =
    (if finishOnce a then a
     else mkAccounter (current a) (Total a) (startTime a) (startValue a)
                      (refreshRate a) (currentValue a) true ChanClosed) /\
  current (state_of (run (map OpStat nows) a)) = current a /\
  Total (state_of (run (map OpStat nows) a)) = Total a /\
  startTime (state_of (run (map OpStat nows) a)) = startTime a /\
  startValue (state_of (run (map OpStat nows) a)) = startValue a /\
  refreshRate (state_of (run (map OpStat nows) a)) = refreshRate a /\
  currentValue (state_of (run (map OpStat nows) a)) = currentValue a.
Proof.
  split; [apply Stat_state|].
  revert a. induction nows as [|t ts IH]; intros a; [repeat split|].
  rewrite run_stat_state.
  destruct (Stat_fields t a) as (H1 & H2 & H3 & H4 & H5 & H6).
  destruct (Stat t a) as [s a'|a']; simpl in *.
  - destruct (IH a') as (I1 & I2 & I3 & I4 & I5 & I6).
    repeat split; congruence.
  - repeat split; assumption.
Qed.

End Sequential.

(** ** Between goroutines *)

Module ConcFacts.
Import Conc ConcSpec.

(** *** Counting goroutines *)

Lemma count_app f gs1 gs2 : count f (gs1 ++ gs2) = (count f gs1 + count f gs2)%nat.
Proof. induction gs1 as [|g gs1 IH]; simpl; [reflexivity|]. rewrite IH. lia. Qed.

Lemma count_le f f' gs :
  (forall g, f g = true -> f' g = true) -> (count f gs <= count f' gs)%nat.
Proof.
  intros H. induction gs as [|g gs IH]; simpl; [lia|].
  specialize (H g). destruct (f g), (f' g); simpl;
    first [lia | specialize (H eq_refl); discriminate].
Qed.

Lemma count_map_spawn f clients :
  f (spawn []) = false -> (forall ms, f (spawn ms) = f (spawn [])) ->
  count f (map spawn clients) = 0%nat.
Proof.
  intros H0 H. induction clients as [|ms clients IH]; simpl; [reflexivity|].
  now rewrite IH, H, H0.
Qed.

(** The pool around the goroutine at index [tid]. *)
Lemma count_lookup f (gs : list goroutine) tid g :
  gs !! tid = Some g ->
  count f gs = (count f (take tid gs ++ drop (S tid) gs) + Nat.b2n (f g))%nat.
Proof.
  intros H. rewrite <- (take_drop_middle gs tid g H) at 1.
  rewrite !count_app. simpl. lia.
Qed.

Lemma count_insert f (gs : list goroutine) tid g g' :
  gs !! tid = Some g ->
  count f (<[tid := g']> gs) = (count f (take tid gs ++ drop (S tid) gs) + Nat.b2n (f g'))%nat.
Proof.
  intros H. pose proof (lookup_lt_Some _ _ _ H) as Hlt.
  rewrite (count_lookup f (<[tid := g']> gs) tid g')
    by (apply list_lookup_insert_eq; exact Hlt).
  rewrite take_insert_ge, drop_insert_lt by lia. reflexivity.
Qed.

Lemma after_close_in_body g : after_close g = true -> in_body g = true.
Proof. unfold after_close, in_body. destruct (at_pc g) as [|u|[]]; auto. Qed.

Lemma in_body_holds_lock g : in_body g = true -> holds_lock g = true.
Proof. unfold in_body, holds_lock. destruct (at_pc g) as [|u|[]]; auto. Qed.

(** The invariant of a configuration, seen from one of its goroutines. *)
Lemma inv_inv_at c tid g :
  pool c !! tid = Some g ->
  let rest := take tid (pool c) ++ drop (S tid) (pool c) in
  inv c <->
  inv_at (mem c) (onceM c) (count holds_lock rest) (count in_body rest)
         (count after_close rest) (count leaving rest) g.
Proof.
  intros H rest. unfold inv, inv_at, stopped.
  rewrite !(count_lookup _ _ _ _ H). fold rest.
  pose proof (count_le after_close in_body rest after_close_in_body).
  pose proof (count_le in_body holds_lock rest in_body_holds_lock).
  tauto.
Qed.

Lemma inv_at_inv c tid g a m g' :
  pool c !! tid = Some g ->
  let rest := take tid (pool c) ++ drop (S tid) (pool c) in
  inv_at a m (count holds_lock rest) (count in_body rest)
         (count after_close rest) (count leaving rest) g' ->
  inv (mkConfig (clock c) a m (writer c) (<[tid := g']> (pool c))).
Proof.
  intros H rest. unfold inv, inv_at, stopped. simpl.
  rewrite !(count_insert _ _ _ _ _ H). fold rest. tauto.
Qed.

(** *** One step *)

Ltac split_all := repeat match goal with |- _ /\ _ => split end.

Ltac no_such_event :=
  try (intros ? ? [=]); try (intros [|]; discriminate); try (intros; reflexivity).

(** A step of a client goroutine keeps the invariant and never panics; it
    emits [EvClose] exactly when it closes the channel, and a [Stat] only
    returns once the channel is closed. *)
Lemma goroutine_step_inv tid now a m kL kB kA kV g :
  inv_at a m kL kB kA kV g ->
  match goroutine_step tid now a m g with
  | Panicked => False
  | Blocked => True
  | Next e (a', m', g') =>
      inv_at a' m' kL kB kA kV g' /\
      Nat.b2n (is_closed (isFinished a'))
        = (Nat.b2n (is_closed (isFinished a)) + ev_close e)%nat /\
      (forall t s, e = EvReturn t (RetStat s) -> is_closed (isFinished a) = true) /\
      ~ writer_event e
  end.
Proof.
  unfold goroutine_step, inv_at, holds_lock, in_body, after_close, leaving, writer_event.
  destruct g as [td p st rets]. simpl.
  destruct p as [|u|s]; simpl.
  - destruct td as [|[n|n|pp| |] rest]; simpl; auto;
      intros (H1 & H2 & H3 & H4 & H5 & H6); split_all; auto; try lia; no_such_event.
  - destruct u; simpl; try destruct (negb _); simpl;
      intros (H1 & H2 & H3 & H4 & H5 & H6); split_all; auto; try lia; no_such_event.
  - destruct s; simpl; intros (H1 & H2 & H3 & H4 & H5 & H6).
    all: destruct (finishOnce a) eqn:Hd, (isFinished a) eqn:Hc, m; simpl in *.
    all: try specialize (H4 eq_refl); try specialize (H6 eq_refl).
    all: try lia.
    all: split_all; rewrite ?Hd, ?Hc; simpl; auto; try lia; try discriminate.
    all: no_such_event.
Qed.

Lemma upd_step_latch now a u :
  finishOnce (fst (upd_step now a u)) = finishOnce a /\
  isFinished (fst (upd_step now a u)) = isFinished a /\
  current (fst (upd_step now a u)) = current a.
Proof. destruct u; simpl; try destruct (negb _); auto. Qed.

(** A step of the writer touches neither the latch nor the channel; it
    takes the [isFinished] case only when the channel is closed, and then
    it has returned. *)
Lemma writer_step_facts cs now a w :
  match writer_step cs now a w with
  | Panicked => False
  | Blocked => True
  | Next e (a', w') =>
      finishOnce a' = finishOnce a /\ isFinished a' = isFinished a /\
      ev_close e = 0%nat /\
      (forall t r, e <> EvReturn t r) /\
      (e = EvWriterExit -> is_closed (isFinished a) = true /\ w' = WExit) /\
      w <> WExit
  end.
Proof.
  destruct w as [u|d|]; simpl; [| |exact I].
  - destruct u; simpl; try destruct (negb _); split_all; auto; discriminate.
  - destruct cs.
    + destruct (isFinished a) eqn:Hc; [exact I|]. rewrite Hc.
      split_all; auto; discriminate.
    + destruct (d <=? now); [|exact I]. split_all; auto; discriminate.
Qed.

Lemma step_inv x c :
  inv c ->
  match step x c with
  | Panicked => False
  | Blocked => True
  | Next e c' =>
      inv c' /\
      Nat.b2n (stopped c') = (Nat.b2n (stopped c) + ev_close e)%nat /\
      (forall t s, e = EvReturn t (RetStat s) -> stopped c = true) /\
      (e = EvWriterExit -> stopped c = true /\ writer c' = WExit) /\
      (writer c = WExit -> writer c' = WExit /\ ~ writer_event e)
  end.
Proof.
  intros Hinv. destruct x as [tid|cs|d]; simpl.
  - destruct (pool c !! tid) as [g|] eqn:Hg; [|exact I].
    pose proof (proj1 (inv_inv_at c tid g Hg) Hinv) as Hat.
    pose proof (goroutine_step_inv tid (clock c) _ _ _ _ _ _ g Hat) as Hstep.
    destruct (goroutine_step tid (clock c) (mem c) (onceM c) g)
      as [| |e [[a m] g']]; auto.
    destruct Hstep as (Hat' & Hcl & Hret & Hw).
    split; [exact (inv_at_inv c tid g a m g' Hg Hat')|].
    unfold stopped; simpl. split_all; auto.
    + intros ->. destruct Hw. right. reflexivity.
  - pose proof (writer_step_facts cs (clock c) (mem c) (writer c)) as Hstep.
    destruct (writer_step cs (clock c) (mem c) (writer c)) as [| |e [a w]]; auto.
    destruct Hstep as (Hd & Hc & He & Hret & Hexit & Hne).
    unfold inv, stopped in *; simpl. rewrite Hd, Hc, He.
    split_all; try tauto; try lia.
    intros t s ->. destruct (Hret t (RetStat s) eq_refl).
  - unfold inv, stopped in *; simpl. unfold writer_event.
    split_all; try tauto; try lia; try discriminate.
    intros Hw. split; [exact Hw|]. intros [|]; discriminate.
Qed.

(** *** Runs *)

Lemma exec_after_exit sched : forall c tr c',
  writer c = WExit -> inv c -> exec sched c = Some (tr, c') ->
  writer c' = WExit /\ Forall (fun e => ~ writer_event e) tr.
Proof.
  induction sched as [|x sched IH]; intros c tr c' Hw Hinv; simpl.
  - intros [= <- <-]. auto.
  - pose proof (step_inv x c Hinv) as Hstep.
    destruct (step x c) as [| |e c1]; [eauto|contradiction|].
    destruct Hstep as (Hinv1 & _ & _ & _ & Hstay). destruct (Hstay Hw) as [Hw1 Hne].
    destruct (exec sched c1) as [[tr1 c2]|] eqn:Hrun; [|discriminate].
    intros [= <- <-]. destruct (IH _ _ _ Hw1 Hinv1 Hrun). auto.
Qed.

Lemma exec_inv sched : forall c,
  inv c ->
  exists tr c',
    exec sched c = Some (tr, c') /\ inv c' /\
    Nat.b2n (stopped c') = (Nat.b2n (stopped c) + closes tr)%nat /\
    (stat_returns tr -> stopped c' = true) /\
    (forall tr1 tr2, tr = tr1 ++ EvWriterExit :: tr2 ->
       (Nat.b2n (stopped c) + closes tr1)%nat = 1%nat /\
       writer c' = WExit /\
       Forall (fun e => ~ writer_event e) tr2).
Proof.
  induction sched as [|x sched IH]; intros c Hinv; simpl.
  - exists [], c.
    split; [reflexivity|]. split; [exact Hinv|].
    split; [unfold closes; simpl; lia|].
    split; [intros (t & s & [])|].
    intros [|? ?] ? [=].
  - pose proof (step_inv x c Hinv) as Hstep.
    destruct (step x c) as [| |e c1]; [eauto|contradiction|].
    destruct Hstep as (Hinv1 & Hcl & Hret & Hexit & _).
    destruct (IH c1 Hinv1) as (tr & c' & Hrun & Hinv' & Hcl' & Hret' & Hw').
    exists (e :: tr), c'. rewrite Hrun.
    split; [reflexivity|]. split; [exact Hinv'|].
    split; [unfold closes in *; simpl; lia|].
    split.
    + intros (t & s & [->|Hin]).
      * specialize (Hret t s eq_refl).
        destruct (stopped c'), (stopped c), (stopped c1); simpl in *;
          auto; try lia; discriminate.
      * apply Hret'. exists t, s. exact Hin.
    + intros [|e1 tr1] tr2; simpl; intros [= -> ->].
      * destruct (Hexit eq_refl) as [Hs Hw1].
        destruct (exec_after_exit sched _ _ _ Hw1 Hinv1 Hrun) as [Hw2 Hq].
        rewrite Hs. unfold closes. simpl. auto.
      * destruct (Hw' tr1 tr2 eq_refl) as (H1 & H2 & H3).
        split; [|auto]. unfold closes in *; simpl in *; lia.
Qed.

Lemma init_inv total now clients : inv (init total now clients).
Proof.
  unfold inv, init, stopped. simpl.
  rewrite !count_map_spawn by reflexivity.
  split_all; auto; discriminate.
Qed.

(** *** The stop signal *)



Example two_stats_run :
  exists tr c,
    exec two_stats (init 100 0 [[CallStat]; [CallStat]]) = Some (tr, c) /\
    List.filter (fun e => match e with EvTau => false | _ => true end) tr
      = [EvWriterUpdate; EvClose 0; EvWriterUpdate;
         EvReturn 0 (RetStat (accountStat.mk 100 0 0%float));
         EvReturn 1 (RetStat accountStat.zero);
         EvWriterExit] /\
    writer c = WExit.
Proof. eexists. eexists. vm_compute. repeat split. Qed.

(** *** [Stat] alone and [Stat] interrupted *)

(** A call of [Stat] that no other goroutine interrupts does what the
    sequential [Stat] does. *)
Lemma Stat_alone now a w :
  latch_ok a ->
  exists tr s a',
    Stat now a = Ok s a' /\
    exec (repeat (ARun 0) 12) (mkConfig now a false w [spawn [CallStat]])
      = Some (tr, mkConfig now a' false w [mkGoroutine [] Idle s [RetStat s]]).
Proof.
  unfold latch_ok. destruct a as [c t st sv rr cv [] ch]; simpl.
  - intros _. eexists. eexists. eexists. split; reflexivity.
  - intros H. rewrite (H eq_refl). eexists. eexists. eexists. split; reflexivity.
Qed.

(** In a call of [Stat] that runs the body without interruption, the speed
    is the one of the progress in [Transferred]. *)
Lemma Speed_is_of_Transferred now a s a' :
  finishOnce a = false -> Stat now a = Ok s a' ->
  accountStat.Speed s = write now a (accountStat.Transferred s).
Proof.
  unfold Stat, Stat_body. intros ->.
  destruct (close (isFinished a)); [|discriminate].
  intros [= <- _]. reflexivity.
Qed.

(** C5, on the code.  The body of [Stat] reads [a.current] twice: plainly
    for [Transferred], then with [atomic.LoadInt64] for the argument of
    [write].  When goroutine 1 runs [Add(5)] between the two reads of
    goroutine 0, one second after the start, [Stat] returns
    [Transferred = 0] with [Speed = 5.0], which is not the speed of a
    progress of 0 (that is 0.0). *)
Theorem Stat_reads_progress_twice :
  exists tr c s,
    exec (repeat (ARun 0) 7 ++ [ARun 1; ATick 1000000000] ++ repeat (ARun 0) 5)
         (init 100 0 [[CallStat]; [CallAdd 5]]) = Some (tr, c) /\
    map returned (pool c) = [[RetStat s]; [RetAdd 5]] /\
    s = accountStat.mk 100 0 5%float /\
    write (clock c) (mem c) (accountStat.Transferred s) = 0%float /\
    accountStat.Speed s <> write (clock c) (mem c) (accountStat.Transferred s).
Proof.
  eexists. eexists. eexists.
  split; [vm_compute; reflexivity|].
  split; [reflexivity|]. split; [reflexivity|].
  split; [vm_compute; reflexivity|].
  vm_compute. discriminate.
Qed.

(** *** Additions from several goroutines *)

Lemma Zsum_app xs ys : Zsum (xs ++ ys) = Zsum xs + Zsum ys.
Proof. induction xs as [|x xs IH]; simpl; [reflexivity|]. rewrite IH. lia. Qed.

Lemma pending_all_lookup (gs : list goroutine) tid g :
  gs !! tid = Some g ->
  pending_all gs = pending_all (take tid gs ++ drop (S tid) gs) + pending g.
Proof.
  intros H. rewrite <- (take_drop_middle gs tid g H) at 1.
  unfold pending_all. rewrite !map_app, !Zsum_app. simpl. lia.
Qed.

Lemma pending_all_insert (gs : list goroutine) tid g g' :
  gs !! tid = Some g ->
  pending_all (<[tid := g']> gs) = pending_all gs - pending g + pending g'.
Proof.
  intros H. pose proof (lookup_lt_Some _ _ _ H) as Hlt.
  rewrite (pending_all_lookup (<[tid := g']> gs) tid g')
    by (apply list_lookup_insert_eq; exact Hlt).
  rewrite take_insert_ge, drop_insert_lt by lia.
  rewrite (pending_all_lookup gs tid g H). lia.
Qed.

Lemma never_sets_insert (gs : list goroutine) tid g' :
  never_sets gs -> Forall (fun m => is_set m = false) (todo g') ->
  never_sets (<[tid := g']> gs).
Proof. intros H H'. apply Forall_insert; assumption. Qed.

(** A step of a goroutine that never calls [Set] either leaves the
    progress alone or adds to it, in [int64], the amount of the call it
    made. *)
Lemma goroutine_step_amount tid now a m g :
  Forall (fun m => is_set m = false) (todo g) ->
  match goroutine_step tid now a m g with
  | Next e (a', m', g') =>
      Forall (fun m => is_set m = false) (todo g') /\
      (current a' = current a /\ pending g' = pending g \/
       current a' = Int64.wrap (current a + (pending g - pending g')))
  | _ => True
  end.
Proof.
  unfold goroutine_step, pending. destruct g as [td p st rets]. simpl.
  intros Hns. destruct p as [|u|s]; simpl.
  - destruct td as [|[n|n|pp| |] rest]; simpl; auto;
      inversion Hns as [|? ? Hm Hrest]; subst; try discriminate;
      (split; [exact Hrest|]); simpl; auto.
    + right. f_equal. lia.
    + right. f_equal. lia.
  - destruct u; simpl; try destruct (negb _); simpl; auto.
  - destruct s; simpl; auto;
      try destruct m; try destruct (close (isFinished a)); simpl; auto.
Qed.

Lemma step_amount S x c :
  never_sets (pool c) ->
  current (mem c) = Int64.wrap (S - pending_all (pool c)) ->
  match step x c with
  | Next e c' =>
      never_sets (pool c') /\
      current (mem c') = Int64.wrap (S - pending_all (pool c'))
  | _ => True
  end.
Proof.
  intros Hns Hcur. destruct x as [tid|cs|d]; simpl.
  - destruct (pool c !! tid) as [g|] eqn:Hg; [|exact I].
    assert (Forall (fun m => is_set m = false) (todo g)) as Hg_ns.
    { unfold never_sets in Hns. rewrite Forall_lookup in Hns. exact (Hns tid g Hg). }
    pose proof (goroutine_step_amount tid (clock c) (mem c) (onceM c) g Hg_ns) as Hstep.
    destruct (goroutine_step tid (clock c) (mem c) (onceM c) g)
      as [| |e [[a m] g']]; auto.
    destruct Hstep as [Hns' Hamt]. simpl.
    split; [exact (never_sets_insert _ _ _ Hns Hns')|].
    rewrite (pending_all_insert _ _ _ g' Hg).
    destruct Hamt as [[-> ->]| ->].
    + rewrite Hcur. f_equal. lia.
    + rewrite Hcur, Int64Facts.wrap_wrap_add. f_equal. lia.
  - pose proof (upd_step_latch (clock c) (mem c)) as Hupd.
    destruct (writer c) as [u|dl|]; simpl; auto.
    + destruct u; simpl; try destruct (negb _); simpl; auto.
    + destruct cs; [destruct (isFinished (mem c))|destruct (dl <=? clock c)]; simpl; auto.
  - auto.
Qed.

Lemma exec_amount S sched : forall c tr c',
  never_sets (pool c) ->
  current (mem c) = Int64.wrap (S - pending_all (pool c)) ->
  exec sched c = Some (tr, c') ->
  current (mem c') = Int64.wrap (S - pending_all (pool c')).
Proof.
  induction sched as [|x sched IH]; intros c tr c' Hns Hcur; simpl.
  - intros [= <- <-]. exact Hcur.
  - pose proof (step_amount S x c Hns Hcur) as Hstep.
    destruct (step x c) as [| |e c1]; [eauto|discriminate|].
    destruct Hstep as [Hns1 Hcur1].
    destruct (exec sched c1) as [[tr1 c2]|] eqn:Hrun; [|discriminate].
    intros [= <- <-]. exact (IH _ _ _ Hns1 Hcur1 Hrun).
Qed.

Lemma pending_all_spawn clients : pending_all (map spawn clients) = amounts clients.
Proof.
  unfold pending_all, amounts. rewrite map_map. reflexivity.
Qed.

Lemma pending_all_done gs : Forall (fun g => todo g = []) gs -> pending_all gs = 0.
Proof.
  unfold pending_all. induction 1 as [|g gs Hg _ IH]; simpl; [reflexivity|].
  unfold pending at 1. rewrite Hg, IH. reflexivity.
Qed.

(** Whatever the interleaving and the number of goroutines: once every
    client has made all its calls, none of them [Set], the progress is the
    [int64] sum of the amounts of all [Add] and [Read] calls; it is their
    sum when that is within [int64]. *)
Theorem additions_commute (total t0 : Z) (clients : list (list method))
    (sched : list action) :
  Forall (Forall (fun m => is_set m = false)) clients ->
  exists tr c,
    exec sched (init total t0 clients) = Some (tr, c) /\
    current (mem c) = Int64.wrap (amounts clients - pending_all (pool c)) /\
    (Forall (fun g => todo g = []) (pool c) ->
     Int64.in_range (amounts clients) ->
     current (mem c) = amounts clients).
Proof.
  intros Hns.
  destruct (exec_inv sched (init total t0 clients) (init_inv total t0 clients))
    as (tr & c & Hrun & _).
  exists tr, c. split; [exact Hrun|].
  assert (current (mem c) = Int64.wrap (amounts clients - pending_all (pool c))) as Hcur.
  { apply (exec_amount (amounts clients) sched (init total t0 clients) tr c); auto.
    - unfold never_sets, init. simpl. rewrite Forall_map. exact Hns.
    - simpl. rewrite pending_all_spawn, Z.sub_diag. reflexivity. }
  split; [exact Hcur|].
  intros Hdone Hr. rewrite Hcur, (pending_all_done _ Hdone), Z.sub_0_r.
  apply Int64Facts.wrap_id, Hr.
Qed.

Lemma additions_commute_witness :
  exists tr c,
    exec [ARun 0; ARun 1; ARun 1; ARun 0]
         (init 0 0 [[CallAdd 3; CallAdd 4]; [CallRead [x00; x01]; CallAdd 5]])
      = Some (tr, c) /\
    current (mem c) = 14.
Proof.
  destruct (additions_commute 0 0
              [[CallAdd 3; CallAdd 4]; [CallRead [x00; x01]; CallAdd 5]]
              [ARun 0; ARun 1; ARun 1; ARun 0])
    as (tr & c & Hrun & _ & Hfin).
  - repeat constructor.
  - exists tr, c. split; [exact Hrun|].
    vm_compute in Hrun. injection Hrun as <- <-.
    apply Hfin.
    + repeat constructor.
    + vm_compute. split; discriminate.
Defined.

(** *** [Stat] from several goroutines *)

Lemma goroutine_step_owed i now a m g o :
  slot_ok o i g ->
  (o <> None -> is_closed (isFinished a) = true) ->
  match goroutine_step i now a m g with
  | Next e (a', m', g') =>
      slot_ok (owes o e) i g' /\
      (owes o e <> None -> is_closed (isFinished a') = true) /\
      (forall s, e = EvReturn i (RetStat s) -> s = accountStat.zero \/ o = Some i) /\
      by_goroutine i e /\
      (e = EvClose i -> o = None)
  | _ => True
  end.
Proof.
  unfold goroutine_step, slot_ok, after_close, leaving, by_goroutine.
  destruct g as [td p st rets]. simpl.
  destruct p as [|u|s]; simpl.
  - intros _ Ho. destruct td as [|[n|n|pp| |] rest]; simpl; auto;
      split_all; eauto; try discriminate.
  - intros _ Ho. destruct u; simpl; try destruct (negb _); simpl;
      split_all; eauto; try discriminate.
  - intros Hslot Ho. destruct s; simpl in *.
    all: try destruct (finishOnce a); try destruct m; simpl; auto.
    all: try (destruct (isFinished a) eqn:Hc; simpl in *; auto).
    all: split_all; eauto; try discriminate.
    all: try (intros _; destruct o as [t|];
              [specialize (Ho ltac:(discriminate)); discriminate|reflexivity]).
    all: try (intros s0 [= <-]; exact Hslot).
    all: try (intros H; destruct o as [t|];
              [apply Ho; discriminate|exfalso; apply H; reflexivity]).
Qed.

(** The other goroutines keep what they hold. *)
Lemma other_slot_ok i j e o g :
  j <> i -> by_goroutine i e -> (e = EvClose i -> o = None) ->
  slot_ok o j g -> slot_ok (owes o e) j g.
Proof.
  intros Hne He Hclose. unfold slot_ok.
  destruct (at_pc g) as [|u|s]; auto.
  destruct He as [->|[->|[r ->]]]; simpl; auto.
  - rewrite (Hclose eq_refl).
    destruct (after_close g); [discriminate|].
    destruct (leaving g); [|auto]. intros [H|H]; [auto|discriminate].
  - destruct r; auto.
    assert (o = Some j ->
            match o with
            | Some t => if Nat.eqb t i then None else o
            | None => None
            end = Some j) as Hkeep.
    { intros ->. destruct (Nat.eqb_spec j i); [contradiction|reflexivity]. }
    destruct (after_close g); [exact Hkeep|].
    destruct (leaving g); [|auto]. intros [H|H]; [auto|right; exact (Hkeep H)].
Qed.

Lemma step_owed x c o :
  slots_ok o c ->
  match step x c with
  | Next e c' =>
      slots_ok (owes o e) c' /\
      (forall tid s, e = EvReturn tid (RetStat s) -> s = accountStat.zero \/ o = Some tid)
  | _ => True
  end.
Proof.
  intros [Hslots Hstop]. destruct x as [i|cs|d]; simpl.
  - destruct (pool c !! i) as [g|] eqn:Hg; [|exact I].
    pose proof (goroutine_step_owed i (clock c) (mem c) (onceM c) g o
                  (Hslots i g Hg) Hstop) as Hstep.
    destruct (goroutine_step i (clock c) (mem c) (onceM c) g)
      as [| |e [[a m] g']]; auto.
    destruct Hstep as (Hg' & Hstop' & Hret & Hby & Hclose).
    split; [split|].
    + simpl. intros j gj Hj. destruct (decide (j = i)) as [->|Hne].
      * rewrite list_lookup_insert_eq in Hj by (eapply lookup_lt_Some; exact Hg).
        injection Hj as <-. exact Hg'.
      * rewrite list_lookup_insert_ne in Hj by auto.
        exact (other_slot_ok i j e o gj Hne Hby Hclose (Hslots j gj Hj)).
    + exact Hstop'.
    + intros tid s He. destruct Hby as [Hby|[Hby|[r Hby]]];
        rewrite Hby in He; try discriminate.
      injection He as Ht Hr. subst tid r. exact (Hret s Hby).
  - pose proof (writer_step_facts cs (clock c) (mem c) (writer c)) as Hstep.
    destruct (writer_step cs (clock c) (mem c) (writer c)) as [| |e [a w]]; auto.
    destruct Hstep as (Hd & Hc & He & Hret & Hexit & Hne).
    assert (owes o e = o) as ->.
    { destruct e as [| | t r| |]; try reflexivity; try discriminate.
      destruct (Hret t r eq_refl). }
    split; [split|]; simpl; auto.
    + unfold stopped in *. simpl. rewrite Hc. exact Hstop.
    + intros tid s ->. destruct (Hret tid _ eq_refl).
  - split; [split|]; simpl; auto. intros tid s [=].
Qed.

Lemma exec_owed sched : forall c pre tr c',
  slots_ok (owed pre) c ->
  exec sched c = Some (tr, c') ->
  slots_ok (owed (pre ++ tr)) c' /\
  (forall tr1 tid s tr2,
     tr = tr1 ++ EvReturn tid (RetStat s) :: tr2 ->
     s = accountStat.zero \/ owed (pre ++ tr1) = Some tid).
Proof.
  induction sched as [|x sched IH]; intros c pre tr c' Hok; simpl.
  - intros [= <- <-]. rewrite app_nil_r. split; [exact Hok|].
    intros [|? ?] ? ? ? [=].
  - pose proof (step_owed x c (owed pre) Hok) as Hstep.
    destruct (step x c) as [| |e c1]; [eauto|discriminate|].
    destruct Hstep as [Hok1 Hret].
    destruct (exec sched c1) as [[tr' c2]|] eqn:Hrun; [|discriminate].
    intros [= <- <-].
    assert (owed (pre ++ [e]) = owes (owed pre) e) as Hsnoc.
    { unfold owed. rewrite fold_left_app. reflexivity. }
    rewrite <- Hsnoc in Hok1.
    destruct (IH c1 (pre ++ [e]) tr' c2 Hok1 Hrun) as [Hok2 Hret2].
    rewrite <- app_assoc in Hok2. split; [exact Hok2|].
    intros [|e1 tr1] tid s tr2; simpl; intros [= -> ->].
    + rewrite app_nil_r. exact (Hret tid s eq_refl).
    + specialize (Hret2 tr1 tid s tr2 eq_refl).
      rewrite <- app_assoc in Hret2. exact Hret2.
Qed.

Lemma init_slots_ok total now clients : slots_ok (owed []) (init total now clients).
Proof.
  split; [|intros H; destruct H; reflexivity].
  intros i g Hg. unfold init in Hg. simpl in Hg.
  rewrite list_lookup_fmap in Hg.
  destruct (clients !! i); [|discriminate]. injection Hg as <-. exact I.
Qed.

Lemma owed_closes tr : forall o,
  fold_left owes tr o <> None -> o <> None \/ (1 <= closes tr)%nat.
Proof.
  induction tr as [|e tr IH]; intros o; simpl; [auto|].
  intros H. destruct (IH _ H) as [Ho|Hc].
  - destruct e as [|t|t r| |]; simpl in *; auto.
    + right. unfold closes. simpl. lia.
    + destruct r; auto. destruct o; [left; discriminate|contradiction].
  - right. unfold closes in *. simpl. lia.
Qed.

Lemma closes_cons e tr : closes (e :: tr) = (ev_close e + closes tr)%nat.
Proof. reflexivity. Qed.

Lemma closes_app tr1 tr2 : closes (tr1 ++ tr2) = (closes tr1 + closes tr2)%nat.
Proof.
  unfold closes. induction tr1 as [|e tr1 IH]; simpl; [reflexivity|].
  rewrite IH. lia.
Qed.

(** Whatever the interleaving: a call of [Stat] returns the zero
    [accountStat] unless it is the call that closed the channel; and of
    any two calls of [Stat] that return in a run, at least one returns the
    zero [accountStat]. *)
Lemma exec_Stat_returns (total t0 : Z) (clients : list (list method))
    (sched : list action) :
  exists tr c,
    exec sched (init total t0 clients) = Some (tr, c) /\
    (forall tr1 tid s tr2,
       tr = tr1 ++ EvReturn tid (RetStat s) :: tr2 ->
       s = accountStat.zero \/ owed tr1 = Some tid) /\
    (forall tr1 t1 s1 tr2 t2 s2 tr3,
       tr = tr1 ++ EvReturn t1 (RetStat s1) :: tr2 ++ EvReturn t2 (RetStat s2) :: tr3 ->
       s1 = accountStat.zero \/ s2 = accountStat.zero).
Proof.
  destruct (exec_inv sched (init total t0 clients) (init_inv total t0 clients))
    as (tr & c & Hrun & _ & Hcl & _).
  change (stopped (init total t0 clients)) with false in Hcl. simpl in Hcl.
  destruct (exec_owed sched _ [] tr c (init_slots_ok total t0 clients) Hrun)
    as [_ Hret]. simpl in Hret.
  exists tr, c. split; [exact Hrun|]. split; [exact Hret|].
  intros tr1 t1 s1 tr2 t2 s2 tr3 Htr.
  destruct (Hret tr1 t1 s1 _ Htr) as [H1|H1]; [auto|].
  rewrite app_comm_cons, app_assoc in Htr.
  destruct (Hret _ t2 s2 _ Htr) as [H2|H2]; [auto|].
  exfalso.
  assert (1 <= closes tr1)%nat as Hc1.
  { destruct (owed_closes tr1 None) as [H|H]; [unfold owed in H1|contradiction|exact H].
    rewrite H1. discriminate. }
  assert (1 <= closes tr2)%nat as Hc2.
  { unfold owed in H2. rewrite fold_left_app in H2. simpl in H2.
    unfold owed in H1. rewrite H1 in H2. simpl in H2. rewrite Nat.eqb_refl in H2.
    destruct (owed_closes tr2 None) as [H|H]; [rewrite H2|contradiction|exact H].
    discriminate. }
  assert (closes tr <= 1)%nat as Hle by (destruct (stopped c); simpl in Hcl; lia).
  rewrite Htr, !closes_app, !closes_cons in Hle. lia.
Qed.

(** C1, as amended.  Called one after the other on a new accounter: the
    first [Stat] runs the body and returns the snapshot computed there
    (total, progress at that moment, speed at that moment), and every later
    [Stat] returns the zero [accountStat], not that snapshot; no call
    panics.  Called from several goroutines, under any schedule: a [Stat]
    returns the zero [accountStat] unless it is the call that closed the
    channel, so of any two calls that return at least one returns the zero
    [accountStat]. *)
Theorem Stat_first_computes_others_zero
    (total t0 now : Z) (before after : list op)
    (clients : list (list method)) (sched : list action) :
  Forall (fun o => is_stat o = false) before ->
  (exists rs a rs' a',
     run before (newAccounter total t0) = Ok rs a /\
     run (before ++ OpStat now :: after) (newAccounter total t0)
       = Ok (rs ++ RetStat (snapshot now a) :: rs') a' /\
     Forall stat_is_zero rs') /\
  (exists tr c,
     exec sched (init total t0 clients) = Some (tr, c) /\
     (forall tr1 tid s tr2,
        tr = tr1 ++ EvReturn tid (RetStat s) :: tr2 ->
        s = accountStat.zero \/ owed tr1 = Some tid) /\
     (forall tr1 t1 s1 tr2 t2 s2 tr3,
        tr = tr1 ++ EvReturn t1 (RetStat s1) :: tr2 ++ EvReturn t2 (RetStat s2) :: tr3 ->
        s1 = accountStat.zero \/ s2 = accountStat.zero)).
Proof.
  intros Hb. split.
  - exact (run_first_Stat total t0 now before after Hb).
  - exact (exec_Stat_returns total t0 clients sched).
Qed.

Lemma Stat_first_computes_others_zero_witness :
  (exists rs a rs' a',
     run [OpAdd 1000] (newAccounter 100 0) = Ok rs a /\
     run ([OpAdd 1000] ++ OpStat (2 * Second) :: [OpStat (3 * Second)]) (newAccounter 100 0)
       = Ok (rs ++ RetStat (snapshot (2 * Second) a) :: rs') a' /\
     Forall stat_is_zero rs') /\
  (exists tr c,
     exec two_stats (init 100 0 [[CallStat]; [CallStat]]) = Some (tr, c) /\
     (forall tr1 tid s tr2,
        tr = tr1 ++ EvReturn tid (RetStat s) :: tr2 ->
        s = accountStat.zero \/ owed tr1 = Some tid) /\
     (forall tr1 t1 s1 tr2 t2 s2 tr3,
        tr = tr1 ++ EvReturn t1 (RetStat s1) :: tr2 ++ EvReturn t2 (RetStat s2) :: tr3 ->
        s1 = accountStat.zero \/ s2 = accountStat.zero)).
Proof.
  apply (Stat_first_computes_others_zero 100 0 (2 * Second)
           [OpAdd 1000] [OpStat (3 * Second)] [[CallStat]; [CallStat]] two_stats).
  repeat constructor.
Defined.

End ConcFacts.

(** * Further properties *)

(** ** One call at a time *)

Module MoreSequential.
Import MoreSpec.

(** *** [Read] in chunks *)

Lemma wrap_add_wrap x y : Int64.wrap (x + Int64.wrap y) = Int64.wrap (x + y).
Proof. rewrite (Z.add_comm x), Int64Facts.wrap_wrap_add. f_equal. lia. Qed.

Lemma run_reads chunks : forall a,
  run (map OpRead chunks) a
    = Ok (map (fun p => RetRead (Z.of_nat (length p)) None) chunks)
         (fold_left (fun a p => snd (Read p a)) chunks a).
Proof.
  induction chunks as [|p chunks IH]; intros a; simpl; [reflexivity|].
  rewrite IH. reflexivity.
Qed.

Lemma fold_reads chunks : forall a,
  fold_left (fun a p => snd (Read p a)) chunks a
    = match chunks with
      | [] => a
      | _ => with_current
               (Int64.wrap (current a + Z.of_nat (length (concat chunks)))) a
      end.
Proof.
  induction chunks as [|p chunks IH]; intros a; [reflexivity|].
  simpl fold_left. rewrite IH. simpl concat. rewrite length_app, Nat2Z.inj_add.
  destruct chunks as [|q chunks].
  - simpl. rewrite Z.add_0_r. reflexivity.
  - simpl snd. rewrite with_current_twice. f_equal.
    cbn [current with_current]. rewrite Int64Facts.wrap_wrap_add. f_equal. lia.
Qed.

(** However a stream of bytes is cut into buffers, reading the buffers one
    after the other leaves the accounter as one [Read] of the whole stream
    does, and each call returns the length of its buffer and no error. *)
Theorem Read_chunks (a : accounter) (chunks : list (list byte)) :
  Int64.in_range (current a) ->
  run (map OpRead chunks) a
    = Ok (map (fun p => RetRead (Z.of_nat (length p)) None) chunks)
         (snd (Read (concat chunks) a)).
Proof.
  intros Hr. rewrite run_reads, fold_reads.
  destruct chunks as [|p chunks]; [|reflexivity].
  simpl. rewrite Z.add_0_r, Int64Facts.wrap_id by exact Hr.
  now rewrite with_current_id.
Qed.

Lemma Read_chunks_witness :
  run (map OpRead [[x01; x02]; []; [x03]]) (newAccounter 10 0)
    = Ok (map (fun p => RetRead (Z.of_nat (length p)) None) [[x01; x02]; []; [x03]])
         (snd (Read (concat [[x01; x02]; []; [x03]]) (newAccounter 10 0))).
Proof.
  apply (Read_chunks (newAccounter 10 0) [[x01; x02]; []; [x03]]).
  exact Int64Facts.zero_in_range.
Defined.

(** *** Negative amounts *)

(** [Add] takes any [int64]: adding [-n] after [n] gives back the progress
    there was, whatever the sign of [n] and also across the wrap-around;
    the second call returns that progress. *)
Theorem Add_then_subtract (n : Z) (a : accounter) :
  Int64.in_range (current a) ->
  Add (Int64.wrap (- n)) (snd (Add n a)) = (current a, a).
Proof.
  intros Hr. unfold Add. cbn [snd current with_current].
  rewrite wrap_add_wrap, Int64Facts.wrap_wrap_add.
  replace (current a + n + - n) with (current a) by lia.
  rewrite Int64Facts.wrap_id by exact Hr.
  now rewrite with_current_twice, with_current_id.
Qed.

Lemma Add_then_subtract_witness :
  Add (Int64.wrap (- 7)) (snd (Add 7 (Set' Int64.max_int (newAccounter 0 0))))
    = (Int64.max_int, Set' Int64.max_int (newAccounter 0 0)).
Proof.
  apply (Add_then_subtract 7 (Set' Int64.max_int (newAccounter 0 0))).
  simpl. unfold Int64.in_range, Int64.min_int, Int64.max_int. lia.
Defined.

(** *** [Update] and the other calls *)

Lemma same_but_cache_fields a b :
  same_but_cache a b <->
  current a = current b /\ Total a = Total b /\ startTime a = startTime b /\
  startValue a = startValue b /\ refreshRate a = refreshRate b /\
  finishOnce a = finishOnce b /\ isFinished a = isFinished b.
Proof.
  unfold same_but_cache. destruct a, b; simpl. split.
  - intros [= -> -> -> -> -> -> ->]. repeat split.
  - intros (-> & -> & -> & -> & -> & -> & ->). reflexivity.
Qed.

Lemma Update_same_but_cache now a b :
  same_but_cache a b -> same_but_cache (Update now a) b.
Proof.
  rewrite !same_but_cache_fields, Update_only_currentValue. simpl. tauto.
Qed.

Lemma call_same_but_cache o a b :
  same_but_cache a b -> is_update o = false ->
  match call o a, call o b with
  | Ok r a', Ok r' b' => r = r' /\ same_but_cache a' b'
  | Panic a', Panic b' => same_but_cache a' b'
  | _, _ => False
  end.
Proof.
  intros H. pose proof (proj1 (same_but_cache_fields a b) H) as Hf.
  destruct a as [c t st sv rr cv d ch], b as [c' t' st' sv' rr' cv' d' ch'].
  simpl in Hf. destruct Hf as (-> & -> & -> & -> & -> & -> & ->).
  destruct o as [n|n|p|now|now]; simpl; try discriminate; intros _;
    try (split; reflexivity).
  unfold Stat, Stat_body. simpl. destruct d', ch'; simpl;
    try (split; reflexivity); reflexivity.
Qed.

Lemma call_ret_kind o a r a' :
  call o a = Ok r a' -> is_update_ret r = is_update o.
Proof.
  destruct o as [n|n|p|t|t]; simpl; try (intros [= <- _]; reflexivity).
  destruct (Stat t a); [|discriminate]. intros [= <- _]. reflexivity.
Qed.

Lemma run_same_but_cache os : forall a b,
  same_but_cache a b ->
  match run os a, run (without_updates os) b with
  | Ok rs a', Ok rs' b' => rs' = without_update_rets rs /\ same_but_cache a' b'
  | Panic a', Panic b' => same_but_cache a' b'
  | _, _ => False
  end.
Proof.
  induction os as [|o os IH]; intros a b H; simpl; [auto|].
  destruct (is_update o) eqn:Ho; simpl.
  - destruct o; try discriminate. simpl.
    specialize (IH _ b (Update_same_but_cache now a b H)).
    destruct (run os (Update now a)), (run (without_updates os) b); auto.
  - pose proof (call_same_but_cache o a b H Ho) as Hc.
    destruct (call o a) as [r a1|a1] eqn:Hca, (call o b) as [r' b1|b1];
      try contradiction; [|exact Hc].
    destruct Hc as [<- H1]. specialize (IH a1 b1 H1).
    destruct (run os a1), (run (without_updates os) b1); try contradiction; auto.
    destruct IH as [-> H2]. split; [|exact H2].
    unfold without_update_rets. simpl.
    now rewrite (call_ret_kind o a r a1 Hca), Ho.
Qed.

(** Calls of [Update] are invisible: leaving them out of a sequence of
    calls changes no result of the other calls, whether the run panics,
    and no field of the accounter but [currentValue]. *)
Theorem Update_is_invisible (os : list op) (a : accounter) :
  match run os a, run (without_updates os) a with
  | Ok rs a', Ok rs' b' => rs' = without_update_rets rs /\ same_but_cache a' b'
  | Panic a', Panic b' => same_but_cache a' b'
  | _, _ => False
  end.
Proof. apply run_same_but_cache. reflexivity. Qed.

(** *** [Set] and what came before *)

Lemma call_amount o a :
  is_set_op o = false -> Int64.in_range (current a) ->
  current (state_of (call o a)) = Int64.wrap (current a + op_amount o).
Proof.
  intros Ho Hr. destruct o as [n|n|p|t|t]; simpl; try discriminate; try reflexivity.
  - rewrite Z.add_0_r, Int64Facts.wrap_id by exact Hr.
    unfold Update. destruct (negb _); reflexivity.
  - rewrite Z.add_0_r, Int64Facts.wrap_id by exact Hr.
    replace (state_of match Stat t a with Ok s a0 => Ok (RetStat s) a0 | Panic a0 => Panic a0 end)
      with (state_of (Stat t a)) by (destruct (Stat t a); reflexivity).
    apply Stat_fields.
Qed.

Lemma run_amounts os : forall a,
  latch_ok a -> Int64.in_range (current a) ->
  Forall (fun o => is_set_op o = false) os ->
  current (state_of (run os a)) = Int64.wrap (current a + op_amounts os).
Proof.
  induction os as [|o os IH]; intros a Hl Hr Hns.
  - unfold op_amounts. simpl. now rewrite Z.add_0_r, Int64Facts.wrap_id.
  - inversion Hns as [|? ? Ho Hos]; subst.
    rewrite run_cons_state by exact Hl.
    rewrite IH; [|apply call_latch_ok, Hl| |exact Hos].
    + rewrite (call_amount o a Ho Hr), Int64Facts.wrap_wrap_add.
      unfold op_amounts. simpl. f_equal. lia.
    + rewrite (call_amount o a Ho Hr). apply Int64Facts.wrap_in_range.
Qed.

(** [Set] erases what came before: after [Set(n)], the progress is [n]
    plus, in [int64], the amounts of the [Add] and [Read] calls made since,
    whatever the calls before the [Set] and the state they started from. *)
Theorem Set_erases_history (a : accounter) (before : list op) (n : Z)
    (after : list op) :
  latch_ok a -> Int64.in_range n ->
  Forall (fun o => is_set_op o = false) after ->
  current (state_of (run (before ++ OpSet n :: after) a))
    = Int64.wrap (n + op_amounts after).
Proof.
  intros Hl Hn Hns.
  rewrite run_app_state by exact Hl.
  pose proof (run_latch_ok before a Hl) as Hl1.
  rewrite run_cons_state by exact Hl1.
  apply (run_amounts after (Set' n _)); [|exact Hn|exact Hns].
  exact (call_latch_ok (OpSet n) _ Hl1).
Qed.

Lemma Set_erases_history_witness :
  current (state_of (run ([OpAdd 5; OpRead [x00]] ++ OpSet 100 :: [OpAdd 3; OpStat 9; OpRead [x00; x01]])
                         (newAccounter 0 0)))
    = Int64.wrap (100 + op_amounts [OpAdd 3; OpStat 9; OpRead [x00; x01]]).
Proof.
  apply (Set_erases_history (newAccounter 0 0) [OpAdd 5; OpRead [x00]] 100
           [OpAdd 3; OpStat 9; OpRead [x00; x01]]).
  - apply newAccounter_latch_ok.
  - unfold Int64.in_range, Int64.min_int, Int64.max_int. lia.
  - repeat constructor.
Defined.

End MoreSequential.

(** ** Between goroutines *)

Module MoreConc.
Import Conc ConcSpec ConcFacts MoreSpec.

(** *** The fields set at construction *)

Lemma goroutine_step_constants tid now a m g total :
  Total a = total -> reports total g ->
  match goroutine_step tid now a m g with
  | Next e (a', m', g') =>
      Total a' = Total a /\ startTime a' = startTime a /\
      startValue a' = startValue a /\ refreshRate a' = refreshRate a /\
      reports total g' /\
      ev_writer_update e = 0%nat /\
      (forall t s, e = EvReturn t (RetStat s) ->
         accountStat.Total s = total \/ accountStat.Total s = 0)
  | _ => True
  end.
Proof.
  unfold goroutine_step, reports. destruct g as [td p st rets]. simpl.
  intros Ht Hg. destruct p as [|u|s]; simpl.
  - destruct td as [|[n|n|pp| |] rest]; simpl; auto;
      split_all; auto; intros ? ? [=].
  - destruct u; simpl; try destruct (negb _); simpl;
      split_all; auto; intros ? ? [=].
  - destruct s; simpl; try destruct m; try destruct (close (isFinished a));
      simpl; auto; split_all; auto;
      solve [intros ? ? [=] | intros ? ? [= _ <-]; exact Hg].
Qed.

Lemma writer_step_constants cs now a w :
  match writer_step cs now a w with
  | Next e (a', w') =>
      Total a' = Total a /\ startTime a' = startTime a /\
      startValue a' = startValue a /\ refreshRate a' = refreshRate a /\
      (forall tid r, e <> EvReturn tid r)
  | _ => True
  end.
Proof.
  destruct w as [u|d|]; simpl; [| |exact I].
  - destruct u; simpl; try destruct (negb _); split_all; auto; discriminate.
  - destruct cs; [destruct (isFinished a)|destruct (d <=? now)]; simpl; auto;
      split_all; auto; discriminate.
Qed.

Lemma step_constants total t0 x c :
  constants total t0 (mem c) -> Forall (reports total) (pool c) ->
  match step x c with
  | Next e c' =>
      constants total t0 (mem c') /\ Forall (reports total) (pool c') /\
      (forall tid s, e = EvReturn tid (RetStat s) ->
         accountStat.Total s = total \/ accountStat.Total s = 0)
  | _ => True
  end.
Proof.
  unfold constants. intros (Ht & Hst & Hsv & Hrr) Hpool.
  destruct x as [i|cs|d]; simpl.
  - destruct (pool c !! i) as [g|] eqn:Hg; [|exact I].
    pose proof (goroutine_step_constants i (clock c) (mem c) (onceM c) g total Ht
                  (proj1 (Forall_lookup _ _) Hpool i g Hg)) as Hstep.
    destruct (goroutine_step i (clock c) (mem c) (onceM c) g)
      as [| |e [[a m] g']]; auto.
    destruct Hstep as (H1 & H2 & H3 & H4 & Hg' & _ & Hret). simpl.
    split; [repeat split; congruence|]. split; [apply Forall_insert; assumption|].
    exact Hret.
  - pose proof (writer_step_constants cs (clock c) (mem c) (writer c)) as Hstep.
    destruct (writer_step cs (clock c) (mem c) (writer c)) as [| |e [a w]]; auto.
    destruct Hstep as (H1 & H2 & H3 & H4 & Hret). simpl.
    split; [repeat split; congruence|]. split; [exact Hpool|].
    intros tid s ->. destruct (Hret tid _ eq_refl).
  - simpl. split; [auto|]. split; [exact Hpool|]. intros tid s [=].
Qed.

Lemma exec_constants total t0 sched : forall c tr c',
  constants total t0 (mem c) -> Forall (reports total) (pool c) ->
  exec sched c = Some (tr, c') ->
  constants total t0 (mem c') /\
  (forall tid s, In (EvReturn tid (RetStat s)) tr ->
     accountStat.Total s = total \/ accountStat.Total s = 0).
Proof.
  induction sched as [|x sched IH]; intros c tr c' Hc Hp; simpl.
  - intros [= <- <-]. split; [exact Hc|]. intros ? ? [].
  - pose proof (step_constants total t0 x c Hc Hp) as Hstep.
    destruct (step x c) as [| |e c1]; [eauto|discriminate|].
    destruct Hstep as (Hc1 & Hp1 & Hret).
    destruct (exec sched c1) as [[tr1 c2]|] eqn:Hrun; [|discriminate].
    intros [= <- <-]. destruct (IH _ _ _ Hc1 Hp1 Hrun) as [Hc2 Hret2].
    split; [exact Hc2|]. intros tid s [->|Hin]; eauto.
Qed.

Lemma init_constants total t0 clients :
  constants total t0 (mem (init total t0 clients)) /\
  Forall (reports total) (pool (init total t0 clients)).
Proof.
  split; [repeat split|]. simpl. apply Forall_map, Forall_forall.
  intros ms _. right. reflexivity.
Qed.

(** No call and no step of the writer changes [Total], [startTime],
    [startValue] or [refreshRate]: in every run they are what
    [newAccounter] set.  A [Stat] therefore reports as [Total] the total
    given to [newAccounter], or 0 when it did not run the body. *)
Theorem constants_kept (total t0 : Z) (clients : list (list method))
    (sched : list action) :
  exists tr c,
    exec sched (init total t0 clients) = Some (tr, c) /\
    constants total t0 (mem c) /\
    (forall tid s, In (EvReturn tid (RetStat s)) tr ->
       accountStat.Total s = total \/ accountStat.Total s = 0).
Proof.
  destruct (exec_inv sched (init total t0 clients) (init_inv total t0 clients))
    as (tr & c & Hrun & _).
  destruct (init_constants total t0 clients) as [Hc Hp].
  exists tr, c. split; [exact Hrun|].
  exact (exec_constants total t0 sched _ tr c Hc Hp Hrun).
Qed.

(** *** The pace of the writer *)

Lemma writer_updates_cons e tr :
  writer_updates (e :: tr) = (ev_writer_update e + writer_updates tr)%nat.
Proof. reflexivity. Qed.

Lemma step_paced total t0 n x c :
  constants total t0 (mem c) -> Forall (reports total) (pool c) ->
  paced t0 n c ->
  match step x c with
  | Next e c' => paced t0 (n + ev_writer_update e) c'
  | _ => True
  end.
Proof.
  intros Hc Hp Hn. unfold paced in *. destruct x as [i|cs|d]; simpl.
  - destruct (pool c !! i) as [g|] eqn:Hg; [|exact I].
    pose proof (goroutine_step_constants i (clock c) (mem c) (onceM c) g total
                  (proj1 Hc) (proj1 (Forall_lookup _ _) Hp i g Hg)) as Hstep.
    destruct (goroutine_step i (clock c) (mem c) (onceM c) g)
      as [| |e [[a m] g']]; auto.
    destruct Hstep as (_ & _ & _ & Hrr & _ & -> & _). simpl.
    rewrite Hrr, Nat.add_0_r. exact Hn.
  - destruct Hc as (_ & _ & _ & Hrr). rewrite Hrr in Hn.
    destruct (writer c) as [u|dl|]; simpl; [| |exact I].
    + destruct u; simpl; try destruct (negb _); simpl; rewrite ?Hrr;
        unfold Millisecond, Nanosecond in *; lia.
    + destruct cs.
      * destruct (isFinished (mem c)); simpl; rewrite ?Hrr; [exact I|].
        unfold Millisecond, Nanosecond in *; lia.
      * destruct (Z.leb_spec dl (clock c)); simpl; rewrite ?Hrr; [|exact I].
        unfold Millisecond, Nanosecond in *; lia.
  - rewrite Nat.add_0_r. destruct (writer c) as [[]|dl|]; lia.
Qed.

Lemma exec_paced total t0 sched : forall c n tr c',
  constants total t0 (mem c) -> Forall (reports total) (pool c) ->
  paced t0 n c ->
  exec sched c = Some (tr, c') ->
  paced t0 (n + writer_updates tr) c' /\ constants total t0 (mem c').
Proof.
  induction sched as [|x sched IH]; intros c n tr c' Hc Hp Hn; simpl.
  - intros [= <- <-]. simpl. rewrite Nat.add_0_r. auto.
  - pose proof (step_constants total t0 x c Hc Hp) as Hstep.
    pose proof (step_paced total t0 n x c Hc Hp Hn) as Hpace.
    destruct (step x c) as [| |e c1]; [eauto|discriminate|].
    destruct Hstep as (Hc1 & Hp1 & _).
    destruct (exec sched c1) as [[tr1 c2]|] eqn:Hrun; [|discriminate].
    intros [= <- <-]. rewrite writer_updates_cons, Nat.add_assoc.
    exact (IH _ _ _ _ Hc1 Hp1 Hpace Hrun).
Qed.

(** The writer starts [a.Update()] once at construction and then at most
    once per refresh interval: in every run, the number of updates it has
    started, less one, times 200ms, is at most the time elapsed since
    construction. *)
Theorem writer_keeps_pace (total t0 : Z) (clients : list (list method))
    (sched : list action) :
  exists tr c,
    exec sched (init total t0 clients) = Some (tr, c) /\
    (Z.of_nat (writer_updates tr) - 1) * (Millisecond * 200) <= clock c - t0.
Proof.
  destruct (exec_inv sched (init total t0 clients) (init_inv total t0 clients))
    as (tr & c & Hrun & _).
  destruct (init_constants total t0 clients) as [Hc Hp].
  exists tr, c. split; [exact Hrun|].
  destruct (exec_paced total t0 sched _ 0%nat tr c Hc Hp) as [Hpace Hc'];
    [unfold paced; simpl; lia|exact Hrun|].
  simpl in Hpace. unfold paced in Hpace.
  destruct Hc' as (_ & _ & _ & Hrr). rewrite Hrr in Hpace.
  destruct (writer c) as [[]|dl|]; unfold Millisecond, Nanosecond in *; lia.
Qed.

(** *** [Stat] cannot deadlock *)

Lemma count_positive f (gs : list goroutine) :
  (1 <= count f gs)%nat -> exists i g, gs !! i = Some g /\ f g = true.
Proof.
  induction gs as [|g gs IH]; simpl; [lia|].
  destruct (f g) eqn:Hf; simpl; intros H.
  - exists 0%nat, g. auto.
  - destruct (IH H) as (i & g' & Hi & Hg'). exists (S i), g'. auto.
Qed.

(** In a reachable configuration, a goroutine inside [Stat] can move
    unless it waits for the mutex of the once. *)
Lemma in_Stat_can_step c i g :
  inv c -> pool c !! i = Some g -> in_Stat g = true ->
  at_pc g <> InStat SLock \/ onceM c = false ->
  can_step i c.
Proof.
  intros Hinv Hg Hin Hfree. pose proof (step_inv (ARun i) c Hinv) as Hstep.
  unfold can_step. destruct (step (ARun i) c) as [| |e c'] eqn:Hs;
    [|contradiction|eauto].
  exfalso. clear Hstep. unfold step in Hs. rewrite Hg in Hs.
  unfold in_Stat in Hin. unfold goroutine_step in Hs.
  destruct (at_pc g) as [|u|s]; try discriminate.
  destruct s; simpl in Hs; try discriminate;
    try (destruct (close (isFinished (mem c))); discriminate).
  destruct Hfree as [H|H]; [congruence|]. rewrite H in Hs. discriminate.
Qed.

(** Whatever the interleaving, a goroutine that is inside [Stat] is never
    stuck: it can make its next step, or it waits for the mutex of the
    once and the goroutine that holds the mutex can make its next step. *)
Theorem Stat_never_deadlocks (total t0 : Z) (clients : list (list method))
    (sched : list action) :
  exists tr c,
    exec sched (init total t0 clients) = Some (tr, c) /\
    forall i g, pool c !! i = Some g -> in_Stat g = true ->
      can_step i c \/
      (at_pc g = InStat SLock /\
       exists j h, pool c !! j = Some h /\ holds_lock h = true /\ can_step j c).
Proof.
  destruct (exec_inv sched (init total t0 clients) (init_inv total t0 clients))
    as (tr & c & Hrun & Hinv & _).
  exists tr, c. split; [exact Hrun|]. intros i g Hg Hin.
  assert (at_pc g = InStat SLock \/ at_pc g <> InStat SLock) as [Hlock|Hne]
    by (destruct (at_pc g) as [|u|[]]; auto; right; discriminate);
    [|left; apply (in_Stat_can_step c i g); auto].
  destruct (onceM c) eqn:Hm;
    [|left; apply (in_Stat_can_step c i g); auto].
  right. split; [exact Hlock|].
  pose proof Hinv as (Hcount & _). rewrite Hm in Hcount.
  destruct (count_positive holds_lock (pool c)) as (j & h & Hj & Hh);
    [rewrite Hcount; simpl; lia|].
  exists j, h. split; [exact Hj|]. split; [exact Hh|].
  apply (in_Stat_can_step c j h); auto.
  - unfold holds_lock in Hh. unfold in_Stat.
    destruct (at_pc h) as [|u|s]; try discriminate. reflexivity.
  - left. unfold holds_lock in Hh. intros Heq. rewrite Heq in Hh. discriminate.
Qed.

(** *** The end of the writer *)

(** Once the channel is closed the writer needs no tick of the clock to
    return: from any configuration, six steps of the writer that take the
    [isFinished] case at the select finish the [Update] it is in, if any,
    and leave it returned; they change nothing but [currentValue]. *)
Theorem writer_stops_promptly (c : config) :
  stopped c = true ->
  exists tr c',
    exec (repeat (AWriter CaseFinished) 6) c = Some (tr, c') /\
    writer c' = WExit /\
    clock c' = clock c /\ pool c' = pool c /\ onceM c' = onceM c /\
    same_but_cache (mem c') (mem c).
Proof.
  unfold stopped. destruct c as [clk a m w gs]. simpl.
  destruct a as [cur t st sv rr cv d ch]. simpl. intros Hch.
  destruct ch; [discriminate|].
  destruct w as [[|x|x|x|]|dl|]; simpl;
    try (destruct (negb (x =? cv)); simpl);
    try (destruct (negb (cur =? cv)); simpl);
    eexists; eexists; repeat split.
Qed.

Lemma writer_stops_promptly_witness :
  exists tr c',
    exec (repeat (AWriter CaseFinished) 6)
         (mkConfig 7 (finished (newAccounter 100 0)) false (WUpdate ULoad) [spawn []])
      = Some (tr, c') /\
    writer c' = WExit /\
    clock c' = 7 /\ pool c' = [spawn []] /\ onceM c' = false /\
    same_but_cache (mem c') (finished (newAccounter 100 0)).
Proof.
  apply (writer_stops_promptly
           (mkConfig 7 (finished (newAccounter 100 0)) false (WUpdate ULoad) [spawn []])).
  reflexivity.
Defined.

Lemma goroutine_step_no_Stat tid now a m g :
  in_Stat g = false -> Forall (fun m => is_stat_call m = false) (todo g) ->
  match goroutine_step tid now a m g with
  | Next e (a', m', g') =>
      in_Stat g' = false /\ Forall (fun m => is_stat_call m = false) (todo g') /\
      isFinished a' = isFinished a
  | _ => True
  end.
Proof.
  unfold goroutine_step, in_Stat. destruct g as [td p st rets]. simpl.
  intros Hin Htd. destruct p as [|u|s]; [| |discriminate]; simpl.
  - destruct td as [|[n|n|pp| |] rest]; simpl; auto;
      inversion Htd as [|? ? Hm Hrest]; subst; try discriminate; auto.
  - destruct u; simpl; try destruct (negb _); simpl; auto.
Qed.

Lemma step_no_Stat x c :
  no_Stat_yet c ->
  match step x c with
  | Next e c' => no_Stat_yet c'
  | _ => True
  end.
Proof.
  unfold no_Stat_yet. intros (Hpool & Hopen & Hw). destruct x as [i|cs|d]; simpl.
  - destruct (pool c !! i) as [g|] eqn:Hg; [|exact I].
    destruct (proj1 (Forall_lookup _ _) Hpool i g Hg) as [Hin Htd].
    pose proof (goroutine_step_no_Stat i (clock c) (mem c) (onceM c) g Hin Htd) as Hstep.
    destruct (goroutine_step i (clock c) (mem c) (onceM c) g)
      as [| |e [[a m] g']]; auto.
    destruct Hstep as (Hin' & Htd' & Hch). simpl.
    split; [apply Forall_insert; auto|]. split; [congruence|exact Hw].
  - pose proof (writer_step_facts cs (clock c) (mem c) (writer c)) as Hstep.
    destruct (writer_step cs (clock c) (mem c) (writer c)) as [| |e [a w]] eqn:Hws; auto.
    destruct Hstep as (_ & Hch & _ & _ & _ & _). simpl.
    split; [exact Hpool|]. split; [congruence|].
    intros ->. destruct (writer c) as [u|dl|]; simpl in Hws; [| |discriminate].
    + destruct u; simpl in Hws; try destruct (negb _); discriminate.
    + rewrite Hopen in Hws. destruct cs; [discriminate|].
      destruct (dl <=? clock c); discriminate.
  - simpl. auto.
Qed.

Lemma exec_no_Stat sched : forall c tr c',
  no_Stat_yet c -> exec sched c = Some (tr, c') -> no_Stat_yet c'.
Proof.
  induction sched as [|x sched IH]; intros c tr c' Hc; simpl.
  - intros [= <- <-]. exact Hc.
  - pose proof (step_no_Stat x c Hc) as Hstep.
    destruct (step x c) as [| |e c1]; [eauto|discriminate|].
    destruct (exec sched c1) as [[tr1 c2]|] eqn:Hrun; [|discriminate].
    intros [= <- <-]. exact (IH _ _ _ Hstep Hrun).
Qed.

(** When no client calls [Stat], nothing stops the writer: in every run
    the channel stays open, [close] never runs, and the writer has not
    returned and never takes the [isFinished] case. *)
Theorem writer_runs_until_Stat (total t0 : Z) (clients : list (list method))
    (sched : list action) :
  Forall (Forall (fun m => is_stat_call m = false)) clients ->
  exists tr c,
    exec sched (init total t0 clients) = Some (tr, c) /\
    isFinished (mem c) = ChanOpen /\
    writer c <> WExit /\
    closes tr = 0%nat /\
    ~ In EvWriterExit tr.
Proof.
  intros Hns.
  destruct (exec_inv sched (init total t0 clients) (init_inv total t0 clients))
    as (tr & c & Hrun & _ & Hcl & _ & Hexit).
  assert (no_Stat_yet (init total t0 clients)) as Hinit.
  { split; [|split; [reflexivity|discriminate]].
    simpl. apply Forall_map. eapply Forall_impl; [exact Hns|].
    intros ms Hms. split; [reflexivity|exact Hms]. }
  destruct (exec_no_Stat sched _ tr c Hinit Hrun) as (_ & Hopen & Hw).
  exists tr, c. split; [exact Hrun|]. split; [exact Hopen|]. split; [exact Hw|].
  split.
  - unfold stopped in Hcl. rewrite Hopen in Hcl. simpl in Hcl. lia.
  - intros Hin. destruct (in_split _ _ Hin) as (tr1 & tr2 & Htr).
    destruct (Hexit tr1 tr2 Htr) as (_ & Hw' & _). contradiction.
Qed.

Lemma writer_runs_until_Stat_witness :
  exists tr c,
    exec (repeat (AWriter CaseFinished) 6 ++ [ARun 0; ATick 500000000; AWriter CaseTimer])
         (init 100 0 [[CallAdd 5; CallUpdate]]) = Some (tr, c) /\
    isFinished (mem c) = ChanOpen /\
    writer c <> WExit /\
    closes tr = 0%nat /\
    ~ In EvWriterExit tr.
Proof.
  apply (writer_runs_until_Stat 100 0 [[CallAdd 5; CallUpdate]]
           (repeat (AWriter CaseFinished) 6 ++ [ARun 0; ATick 500000000; AWriter CaseTimer])).
  repeat constructor.
Defined.

End MoreConc.
